(** * CG-Abheastian: the mesh loader and the transform state, embedded in Rocq

    The development follows the C++ sources:
    - [model.cpp] / [model.h]: the Wavefront loader [Model], its
      deduplication pass [alignData] and the flat expansion [unpackIndexes];
    - [mainview.cpp] / [mainview.h]: the transform state of [MainView]
      ([rotateAndScale], [setRotation], [setScale]) and the commands issued
      by [initializeGL] and [paintGL].

    Qt's containers are lists, [unsigned] and [int] are [Z] with the
    wrap-around written out, [float] is an IEEE 754 binary32 datum
    ([spec_float]), and an access outside a vector is the outcome [Fault]. *)

From Stdlib Require Import ZArith Lia Bool Ascii String.
From Stdlib Require Import Floats.SpecFloat.
From stdpp Require Import base tactics option list.

Local Open Scope Z_scope.

(** ** Machine integers *)

Module Int.

Definition UINT_MOD : Z := 2 ^ 32.
Definition INT_MAX : Z := 2 ^ 31 - 1.

(** Conversion to [unsigned]: reduction modulo 2^32. *)
Definition to_unsigned (z : Z) : Z := z mod UINT_MOD.

(** Conversion to [int]: the value modulo 2^32 in the signed range. *)
Definition to_int (z : Z) : Z := (z + 2 ^ 31) mod UINT_MOD - 2 ^ 31.

End Int.

(** ** Floats and [QVector3D] *)

(** A C++ [float]. The comparisons below do not depend on the format's
    parameters; the constants are rounded to binary32. *)
Definition float : Type := spec_float.

Definition prec32 : Z := 24.
Definition emax32 : Z := 128.

(** The float nearest to an integer. *)
Definition float_of_Z (z : Z) : float := binary_normalize prec32 emax32 z 0 false.

(** C++ [==] on floats: a NaN equals nothing, the two zeros are equal. *)
Definition float_eqb (a b : float) : bool := SFeqb a b.

Record QVector3D : Type := mkQVector3D { vx : float; vy : float; vz : float }.

(** [operator==(QVector3D, QVector3D)]: the three components compared
    with [==], no tolerance ([qFuzzyCompare] is a different function). *)
Definition QVector3D_eqb (a b : QVector3D) : bool :=
  float_eqb (vx a) (vx b) && float_eqb (vy a) (vy b) && float_eqb (vz a) (vz b).

(** ** Outcomes of a run *)

(** The error taxonomy of the specification. No function of the sources
    raises any of them; the type lets the error contract be stated. *)
Inductive exception : Type :=
  | IOError
  | MalformedInputError.

(** [Done a]: normal return. [Raised e]: an exception reaches the caller.
    [Fault]: an access outside a [QList]/[QVector] (Qt asserts in a debug
    build, the behaviour is undefined otherwise). *)
Inductive run (A : Type) : Type :=
  | Done (a : A)
  | Raised (e : exception)
  | Fault.

Arguments Done {A} a.
Arguments Raised {A} e.
Arguments Fault {A}.

#[export] Instance run_bind : MBind run := fun A B k r =>
  match r with
  | Done a => k a
  | Raised e => Raised e
  | Fault => Fault
  end.

(** A run that raises nothing. *)
Definition never_raises {A : Type} (r : run A) : Prop := forall e, r <> Raised e.

(** A run that reports malformed input to its caller. *)
Definition rejected {A : Type} (r : run A) : Prop := r = Raised MalformedInputError.

(** ** Qt containers and strings *)

Module Qt.

(** [QList::operator[]] with a constant or [int] index. *)
Definition at_nat {A : Type} (l : list A) (i : nat) : run A :=
  match l !! i with
  | Some a => Done a
  | None => Fault
  end.

(** [QList::operator[]] with an integer index. *)
Definition at_ {A : Type} (l : list A) (i : Z) : run A :=
  if 0 <=? i then at_nat l (Z.to_nat i) else Fault.

(** [QList::contains], on the element type's [==]. *)
Definition contains {A : Type} (eqb : A -> A -> bool) (l : list A) (v : A) : bool :=
  existsb (fun u => eqb u v) l.

(** [QList::indexOf]: the first position whose element [== v], or -1. *)
Fixpoint indexOf_from {A : Type} (eqb : A -> A -> bool) (l : list A) (v : A) (i : Z) : Z :=
  match l with
  | [] => -1
  | u :: l' => if eqb u v then i else indexOf_from eqb l' v (i + 1)
  end.

Definition indexOf {A : Type} (eqb : A -> A -> bool) (l : list A) (v : A) : Z :=
  indexOf_from eqb l v 0.

(** [QString::startsWith]. *)
Fixpoint startsWith (s p : string) : bool :=
  match p, s with
  | EmptyString, _ => true
  | String c p', String d s' => Ascii.eqb c d && startsWith s' p'
  | String _ _, EmptyString => false
  end.

(** [QString::split(sep)] for a one-character separator, keeping empty
    parts: the result always has at least one element. *)
Fixpoint split (sep : ascii) (s : string) : list string :=
  match s with
  | EmptyString => [EmptyString]
  | String c s' =>
      if Ascii.eqb c sep then EmptyString :: split sep s'
      else match split sep s' with
           | [] => [String c EmptyString]
           | t :: ts => String c t :: ts
           end
  end.

Definition nonempty (s : string) : bool :=
  match s with
  | EmptyString => false
  | String _ _ => true
  end.

(** [QString::split(sep, Qt::SkipEmptyParts)]. *)
Definition split_skip (sep : ascii) (s : string) : list string :=
  filter (fun t => Is_true (nonempty t)) (split sep s).

End Qt.

Definition SPACE : ascii := " "%char.
Definition SLASH : ascii := "/"%char.

(** ** [class Model] *)

Record Model : Type := mkModel {
  coordsIndexed : list QVector3D;
  indices : list Z;
  coords : list QVector3D
}.

Definition emptyModel : Model := mkModel [] [] [].

Section Loader.

(** [QString::toFloat] and [QString::toUInt] are Qt's; the loader is
    modelled for any pair of such conversions. *)
Variable toFloat : string -> float.
Variable toUInt : string -> Z.

(** [Model::parseVertex] *)
Definition parseVertex (tokens : list string) (m : Model) : run Model :=
  t1 ← Qt.at_nat tokens 1;
  t2 ← Qt.at_nat tokens 2;
  t3 ← Qt.at_nat tokens 3;
  Done (mkModel (coordsIndexed m ++ [mkQVector3D (toFloat t1) (toFloat t2) (toFloat t3)])
                (indices m) (coords m)).

(** The index stored for one face token: the first [/]-separated field,
    minus one, in [unsigned] arithmetic. *)
Definition faceIndex (token : string) : run Z :=
  e0 ← Qt.at_nat (Qt.split SLASH token) 0;
  Done (Int.to_unsigned (toUInt e0 - 1)).

(** The body of the loop of [parseFace], for [tokens[i]], [tokens[i+1]], ... *)
Fixpoint parseFace_loop (rest : list string) (ind : list Z) : run (list Z) :=
  match rest with
  | [] => Done ind
  | t :: rest' => k ← faceIndex t; parseFace_loop rest' (ind ++ [k])
  end.

(** [Model::parseFace]: the loop starts at [i = 1] and ends when
    [i == tokens.size()]; on an empty list it runs off the end. *)
Definition parseFace (tokens : list string) (m : Model) : run Model :=
  match tokens with
  | [] => Fault
  | _ :: rest =>
      ind ← parseFace_loop rest (indices m);
      Done (mkModel (coordsIndexed m) ind (coords m))
  end.

(** One iteration of the [while] loop of the constructor. *)
Definition processLine (line : string) (m : Model) : run Model :=
  if Qt.startsWith line "#"%string then Done m
  else
    let tokens := Qt.split_skip SPACE line in
    t0 ← Qt.at_nat tokens 0;
    if String.eqb t0 "v"%string then parseVertex tokens m
    else if String.eqb t0 "f"%string then parseFace tokens m
    else Done m.

Fixpoint readLines (lines : list string) (m : Model) : run Model :=
  match lines with
  | [] => Done m
  | line :: rest => m1 ← processLine line m; readLines rest m1
  end.

(** The loop of [unpackIndexes]. *)
Fixpoint unpack_loop (cs : list QVector3D) (idx : list Z) (out : list QVector3D)
  : run (list QVector3D) :=
  match idx with
  | [] => Done out
  | i :: idx' => v ← Qt.at_ cs i; unpack_loop cs idx' (out ++ [v])
  end.

(** [Model::unpackIndexes] *)
Definition unpackIndexes (m : Model) : run Model :=
  out ← unpack_loop (coordsIndexed m) (indices m) [];
  Done (mkModel (coordsIndexed m) (indices m) out).

(** The loop of [alignData]; [currentIndex] is an [unsigned], and the
    [qsizetype] returned by [indexOf] is stored in a [QVector<unsigned>]. *)
Fixpoint align_loop (cs : list QVector3D) (idx : list Z)
    (verts : list QVector3D) (ind : list Z) (currentIndex : Z)
  : run (list QVector3D * list Z) :=
  match idx with
  | [] => Done (verts, ind)
  | i :: idx' =>
      v ← Qt.at_ cs i;
      if Qt.contains QVector3D_eqb verts v then
        align_loop cs idx' verts
          (ind ++ [Int.to_unsigned (Qt.indexOf QVector3D_eqb verts v)]) currentIndex
      else
        align_loop cs idx' (verts ++ [v]) (ind ++ [currentIndex])
          (Int.to_unsigned (currentIndex + 1))
  end.

(** [Model::alignData] *)
Definition alignData (m : Model) : run Model :=
  r ← align_loop (coordsIndexed m) (indices m) [] [] 0;
  Done (mkModel (fst r) (snd r) (coords m)).

(** [Model::Model]: the argument is the content of the file, line by
    line, or [None] when the file cannot be opened. *)
Definition Model_ctor (file : option (list string)) : run Model :=
  match file with
  | None => Done emptyModel
  | Some lines =>
      m ← readLines lines emptyModel;
      m ← unpackIndexes m;
      alignData m
  end.

(** Getters *)
Definition getMeshCoords (m : Model) : list QVector3D := coords m.
Definition getCoords (m : Model) : list QVector3D := coordsIndexed m.
Definition getTriangleIndices (m : Model) : list Z := indices m.
Definition getNumTriangles (m : Model) : Z :=
  Int.to_int (Z.of_nat (length (coords m)) / 3).

End Loader.

(** ** [class MainView] *)

(** [struct Vertex] (vertex.h): a position and a colour. *)
Record Vertex : Type := mkVertex {
  x : float; y : float; z : float;
  r : float; g : float; b : float
}.

(** The operations of [QMatrix4x4] that the view calls. Each of
    [translate], [rotate], [scale] and [perspective] updates the matrix in
    place by multiplying it on the right; here it returns the new matrix. *)
Class QMatrix4x4Ops (M : Type) : Type := {
  identity : M;
  translate : M -> float -> float -> float -> M;
  rotate : M -> float -> float -> float -> float -> M;
  scale : M -> float -> M;
  perspective : M -> float -> float -> float -> float -> M
}.

(** The float nearest to the quotient of two integers. *)
Definition float_ratio (p q : Z) : float :=
  SFdiv prec32 emax32 (float_of_Z p) (float_of_Z q).

(** What the view asks of OpenGL, in the order of the calls. *)
Inductive GLcall (M : Type) : Type :=
  | glClear
  | programBind
  | glUniformMatrix4fv (location : Z) (m : M)
  | glBindVertexArray (vao : Z)
  | glBindBuffer (vbo : Z)
  | glBufferData (size : Z) (data : list Vertex)
  | glDrawArrays (first count : Z)
  | programRelease.

Arguments glClear {M}.
Arguments programBind {M}.
Arguments glUniformMatrix4fv {M} location m.
Arguments glBindVertexArray {M} vao.
Arguments glBindBuffer {M} vbo.
Arguments glBufferData {M} size data.
Arguments glDrawArrays {M} first count.
Arguments programRelease {M}.

Record MainView (M : Type) : Type := mkMainView {
  buffer : Z; array : Z;
  knotVBO : Z; knotVAO : Z;
  model : M;
  knotModel : M;
  projection : M;
  modLoc : Z; projLoc : Z;
  rotX : Z; rotY : Z; rotZ : Z;
  scaling : float;
  (** the number of [update()] requests issued so far *)
  updates : nat
}.

Arguments mkMainView {M}.
Arguments buffer {M}. Arguments array {M}.
Arguments knotVBO {M}. Arguments knotVAO {M}.
Arguments model {M}. Arguments knotModel {M}. Arguments projection {M}.
Arguments modLoc {M}. Arguments projLoc {M}.
Arguments rotX {M}. Arguments rotY {M}. Arguments rotZ {M}.
Arguments scaling {M}. Arguments updates {M}.

Section View.

Context {M : Type} `{QMatrix4x4Ops M}.
Variable toFloat : string -> float.
Variable toUInt : string -> Z.

Definition f0 : float := float_of_Z 0.
Definition f1 : float := float_of_Z 1.

(** The pyramid of mainview.h. *)
Definition va : Vertex := mkVertex (float_of_Z (-1)) f1 f1 f1 f0 f0.




(** The fields of a view before [initializeGL]: default-constructed
    matrices, the object names and uniform locations handed out by
    OpenGL, and the initialisers of mainview.h. *)
Definition newMainView (buf arr kvbo kvao mloc ploc : Z) : MainView M :=
  mkMainView buf arr kvbo kvao identity identity identity mloc ploc 0 0 0 f1 0%nat.


(** [MainView::paintGL] *)
Definition paintGL (v : MainView M) : list (GLcall M) :=
  [ glClear; programBind;
    glUniformMatrix4fv (modLoc v) (model v);
    glUniformMatrix4fv (projLoc v) (projection v);
    glBindVertexArray (array v);
    glDrawArrays 0 18;
    glUniformMatrix4fv (modLoc v) (knotModel v);
    glUniformMatrix4fv (projLoc v) (projection v);
    glBindVertexArray (knotVAO v);
    glDrawArrays 0 3840;
    programRelease ].

(** [MainView::resizeGL] *)
Definition resizeGL (v : MainView M) (newWidth newHeight : Z) : MainView M :=
  mkMainView (buffer v) (array v) (knotVBO v) (knotVAO v)
    (model v) (knotModel v)
    (perspective identity (float_of_Z 60)
       (SFdiv prec32 emax32 (float_of_Z newWidth) (float_of_Z newHeight))
       (float_ratio 1 5) (float_of_Z 20))
    (modLoc v) (projLoc v) (rotX v) (rotY v) (rotZ v) (scaling v) (updates v).

(** The composition that the specification prescribes for an instance
    at offset [(tx, ty, tz)]: from the identity, the translation, the
    rotations about X, Y and Z by the angles in degrees, the uniform
    scale. *)
Definition composed (tx ty tz : float) (ax ay az : Z) (s : float) : M :=
  scale
    (rotate
       (rotate
          (rotate (translate identity tx ty tz) (float_of_Z ax) f1 f0 f0)
          (float_of_Z ay) f0 f1 f0)
       (float_of_Z az) f0 f0 f1)
    s.

(** [MainView::rotateAndScale] *)
Definition rotateAndScale (v : MainView M) : MainView M :=
  let model0 := identity in
  let knotModel0 := identity in
  let model1 := translate model0 (float_of_Z (-2)) f0 (float_of_Z (-6)) in
  let knotModel1 := translate knotModel0 (float_of_Z 2) f0 (float_of_Z (-6)) in
  let model2 := rotate model1 (float_of_Z (rotX v)) f1 f0 f0 in
  let model3 := rotate model2 (float_of_Z (rotY v)) f0 f1 f0 in
  let model4 := rotate model3 (float_of_Z (rotZ v)) f0 f0 f1 in
  let model5 := scale model4 (scaling v) in
  let knotModel2 := rotate knotModel1 (float_of_Z (rotX v)) f1 f0 f0 in
  let knotModel3 := rotate knotModel2 (float_of_Z (rotY v)) f0 f1 f0 in
  let knotModel4 := rotate knotModel3 (float_of_Z (rotZ v)) f0 f0 f1 in
  let knotModel5 := scale knotModel4 (scaling v) in
  mkMainView (buffer v) (array v) (knotVBO v) (knotVAO v)
    model5 knotModel5 (projection v)
    (modLoc v) (projLoc v) (rotX v) (rotY v) (rotZ v) (scaling v)
    (S (updates v)).

(** [MainView::setRotation] *)
Definition setRotation (v : MainView M) (rotateX rotateY rotateZ : Z) : MainView M :=
  rotateAndScale
    (mkMainView (buffer v) (array v) (knotVBO v) (knotVAO v)
       (model v) (knotModel v) (projection v)
       (modLoc v) (projLoc v) rotateX rotateY rotateZ (scaling v) (updates v)).

(** [MainView::setScale] *)
Definition setScale (v : MainView M) (s : float) : MainView M :=
  rotateAndScale
    (mkMainView (buffer v) (array v) (knotVBO v) (knotVAO v)
       (model v) (knotModel v) (projection v)
       (modLoc v) (projLoc v) (rotX v) (rotY v) (rotZ v) s (updates v)).

(** The vertex counts of the draw calls of a frame, in order. *)
Fixpoint drawCounts (calls : list (GLcall M)) : list Z :=
  match calls with
  | [] => []
  | glDrawArrays _ count :: calls' => count :: drawCounts calls'
  | _ :: calls' => drawCounts calls'
  end.

End View.


(** A matrix as the sequence of the in-place multiplications applied to
    the identity: the instance of [QMatrix4x4Ops] that keeps every call
    and its order apart. *)
Inductive MatrixCall : Type :=
  | Translate (tx ty tz : float)
  | Rotate (angle ax ay az : float)
  | Scale (factor : float)
  | Perspective (verticalAngle aspectRatio nearPlane farPlane : float).

#[export] Instance call_log : QMatrix4x4Ops (list MatrixCall) := {|
  identity := [];
  translate m tx ty tz := m ++ [Translate tx ty tz];
  rotate m angle ax ay az := m ++ [Rotate angle ax ay az];
  scale m factor := m ++ [Scale factor];
  perspective m va ar np fp := m ++ [Perspective va ar np fp]
|}.

(** ** The conversions used in the examples

    They agree with Qt's on the inputs of the examples: decimal integer
    literals, with a sign for floats, and [nan]. As in Qt, a string that
    is no number converts to zero. *)

Module Sample.

Fixpoint digits (s : string) (acc : Z) : option Z :=
  match s with
  | EmptyString => Some acc
  | String c s' =>
      let n := Z.of_nat (nat_of_ascii c) - 48 in
      if (0 <=? n) && (n <=? 9) then digits s' (10 * acc + n) else None
  end.

Definition number (s : string) : option Z :=
  match s with
  | EmptyString => None
  | String _ _ => digits s 0
  end.

Definition toUInt (s : string) : Z :=
  match number s with
  | Some n => if n <? Int.UINT_MOD then n else 0
  | None => 0
  end.

Definition toFloat (s : string) : float :=
  if String.eqb s "nan" then S754_nan
  else match s with
       | String "-"%char s' =>
           match number s' with
           | Some 0 => S754_zero true
           | Some n => float_of_Z (- n)
           | None => S754_zero false
           end
       | _ =>
           match number s with
           | Some n => float_of_Z n
           | None => S754_zero false
           end
       end.

Definition load : option (list string) -> run Model := Model_ctor toFloat toUInt.

(** Four positions and two triangles that share an edge. *)
Definition two_triangles : list string :=
  ["# a square, cut in two";
   "v 0 0 0"; "v 1 0 0"; "v 1 1 0"; "v 0 1 0";
   "vn 0 0 1";
   "f 1 2 3"; "f 1/1/1 3/3/1 4/4/1"]%string.

(** A face that refers to position 99 of four. *)
Definition dangling : list string :=
  ["v 0 0 0"; "v 1 0 0"; "v 1 1 0"; "v 0 1 0"; "f 1 2 99"]%string.

(** A face of four references. *)
Definition quad : list string :=
  ["v 0 0 0"; "v 1 0 0"; "v 1 1 0"; "v 0 1 0"; "f 1 2 3 4"]%string.

(** An empty line between two positions. *)
Definition with_blank_line : list string :=
  ["v 0 0 0"; ""; "v 1 0 0"]%string.


(** A triangle with a coordinate that is no number. *)
Definition with_nan : list string :=
  ["v nan 0 0"; "v 1 0 0"; "v 0 1 0"; "f 1 2 3"]%string.

(** The model that [load] returns, or the empty one. *)
Definition loaded (lines : list string) : Model :=
  match load (Some lines) with
  | Done m => m
  | _ => emptyModel
  end.

(** The two triangles with the face lines first. *)
Definition faces_first : list string :=
  ["f 1 2 3"; "f 1/1/1 3/3/1 4/4/1";
   "v 0 0 0"; "v 1 0 0"; "v 1 1 0"; "v 0 1 0"]%string.

(** A reference that is no number. *)
Definition bad_reference : list string :=
  ["v 0 0 0"; "v 1 0 0"; "f x 1 2"]%string.

(** No position and no face. *)
Definition no_geometry : list string :=
  ["# nothing to draw"; "vn 0 0 1"; "g part"]%string.

(** A view before [initializeGL], with the object names and uniform
    locations of a run, and after it on the triangle. *)
Definition view : MainView (list MatrixCall) := newMainView 1 1 2 2 0 1.


End Sample.

(** ** Sources, line by line *)

Section Source.

Variable toFloat : string -> float.
Variable toUInt : string -> Z.

Definition is_comment (line : string) : bool := Qt.startsWith line "#"%string.

Definition tokens_of (line : string) : list string := Qt.split_skip SPACE line.

(** The first token of a line that is no comment, when it has one. *)
Definition tag_of (line : string) : option string :=
  if is_comment line then None else head (tokens_of line).

Definition is_tagged (tag : string) (line : string) : bool :=
  match tag_of line with
  | Some t => String.eqb t tag
  | None => false
  end.

(** The lines that reach [parseVertex], and those that reach [parseFace]. *)
Definition vertex_count (lines : list string) : nat :=
  length (filter (fun l => Is_true (is_tagged "v" l)) lines).

Definition face_count (lines : list string) : nat :=
  length (filter (fun l => Is_true (is_tagged "f" l)) lines).

(** The 1-based reference that a face token carries: its first field. *)
Definition face_ref (token : string) : Z :=
  toUInt (default EmptyString (head (Qt.split SLASH token))).

(** The references of a face line, and of all face lines in order. *)
Definition line_refs (line : string) : list Z :=
  if is_tagged "f" line then map face_ref (tail (tokens_of line)) else [].

Definition face_refs (lines : list string) : list Z :=
  concat (map line_refs lines).

(** The index stored for a reference: minus one, as an [unsigned]. *)
Definition stored_index (ref : Z) : Z := Int.to_unsigned (ref - 1).

(** The position of a position line, and all positions in order. *)
Definition line_positions (line : string) : list QVector3D :=
  if is_tagged "v" line then
    match tail (tokens_of line) with
    | t1 :: t2 :: t3 :: _ => [mkQVector3D (toFloat t1) (toFloat t2) (toFloat t3)]
    | _ => []
    end
  else [].

Definition positions (lines : list string) : list QVector3D :=
  concat (map line_positions lines).

(** A line that the loader reads without fault: a comment, a position
    with its three coordinates, a face whose number of references is
    accepted by [arity] and whose references are accepted by [range], or
    a line with another tag. A line without a token is none of these. *)
Definition valid_line (arity : nat -> bool) (range : Z -> bool) (line : string) : bool :=
  if is_comment line then true
  else match tokens_of line with
       | [] => false
       | t :: args =>
           if String.eqb t "v" then (3 <=? length args)%nat
           else if String.eqb t "f" then
             arity (length args) && forallb (fun a => range (face_ref a)) args
           else true
       end.

Definition triangular (n : nat) : bool := (n =? 3)%nat.
Definition any_arity (n : nat) : bool := true.

(** A reference within [1 .. npos]. *)
Definition within (npos : nat) (ref : Z) : bool :=
  (1 <=? ref) && (ref <=? Z.of_nat npos).
Definition any_reference (ref : Z) : bool := true.

(** A valid mesh source: all faces triangular, all references in range. *)
Definition valid_source (lines : list string) : bool :=
  forallb (valid_line triangular (within (vertex_count lines))) lines.

(** The same with faces of any number of references. *)
Definition loadable_source (lines : list string) : bool :=
  forallb (valid_line any_arity (within (vertex_count lines))) lines.

(** The same with any reference: a source whose lines are all read. *)
Definition readable_source (lines : list string) : bool :=
  forallb (valid_line any_arity any_reference) lines.

(** The flat arrays can be walked by the [int] counters of the loops. *)
Definition int_sized (lines : list string) : Prop :=
  Z.of_nat (length (face_refs lines)) <= Int.INT_MAX.

End Source.

(** ** Deduplication, stated on lists *)

Section DedupDefs.

Context {A : Type} (eqb : A -> A -> bool).

(** No two entries at different places compare equal. *)
Definition pairwise_distinct (l : list A) : Prop :=
  forall i j a b, i <> j -> l !! i = Some a -> l !! j = Some b -> eqb a b = false.

(** The place of the first entry that compares equal to [v]. *)
Fixpoint slot_of (l : list A) (v : A) : option nat :=
  match l with
  | [] => None
  | u :: l' => if eqb u v then Some 0%nat else S <$> slot_of l' v
  end.

(** The unique list after the corners [fl] are walked from [verts]. *)
Fixpoint uniq (fl verts : list A) : list A :=
  match fl with
  | [] => verts
  | v :: fl' =>
      match slot_of verts v with
      | Some _ => uniq fl' verts
      | None => uniq fl' (verts ++ [v])
      end
  end.

(** The place given to each corner of [fl]. *)
Fixpoint slots (fl verts : list A) : list nat :=
  match fl with
  | [] => []
  | v :: fl' =>
      match slot_of verts v with
      | Some k => k :: slots fl' verts
      | None => length verts :: slots fl' (verts ++ [v])
      end
  end.

(** Order of first occurrence, in the words of the specification: a
    corner is kept when no corner before it compares equal to it. *)
Fixpoint first_occurrences (seen fl : list A) : list A :=
  match fl with
  | [] => []
  | v :: fl' =>
      if existsb (fun d => eqb d v) seen
      then first_occurrences (seen ++ [v]) fl'
      else v :: first_occurrences (seen ++ [v]) fl'
  end.

End DedupDefs.

(** The corners that a list of indices picks in a list of positions. *)
Definition resolve (cs : list QVector3D) (idx : list Z) : option (list QVector3D) :=
  mapM (fun i => if 0 <=? i then cs !! Z.to_nat i else None) idx.

(** Every index stored for a face reference is below the number of
    position lines. *)
Definition indices_in_range (toUInt : string -> Z) (lines : list string) : bool :=
  forallb (fun ref => stored_index ref <? Z.of_nat (vertex_count lines))
          (face_refs toUInt lines).

(** ** The entry points of the view, and sequences of calls *)

Section ViewCalls.

Context {M : Type} `{QMatrix4x4Ops M}.

(** [QWidget::update()]: one more repaint request. *)
Definition update (v : MainView M) : MainView M :=
  mkMainView (buffer v) (array v) (knotVBO v) (knotVAO v)
    (model v) (knotModel v) (projection v)
    (modLoc v) (projLoc v) (rotX v) (rotY v) (rotZ v) (scaling v)
    (S (updates v)).

(** The handlers of userinput.cpp: each prints and calls [update()]. *)
Definition keyPressEvent (v : MainView M) (key : Z) : MainView M := update v.
Definition keyReleaseEvent (v : MainView M) (key : Z) : MainView M := update v.
Definition mouseDoubleClickEvent (v : MainView M) : MainView M := update v.
Definition mouseMoveEvent (v : MainView M) : MainView M := update v.
Definition mousePressEvent (v : MainView M) : MainView M := update v.
Definition mouseReleaseEvent (v : MainView M) : MainView M := update v.
Definition wheelEvent (v : MainView M) : MainView M := update v.

(** A call that the view receives after [initializeGL], from the window
    or from Qt. *)
Inductive Call : Type :=
  | CallSetRotation (rotateX rotateY rotateZ : Z)
  | CallSetScale (factor : float)
  | CallResizeGL (newWidth newHeight : Z)
  | CallPaintGL
  | CallKeyPress (key : Z)
  | CallKeyRelease (key : Z)
  | CallMouseDoubleClick
  | CallMouseMove
  | CallMousePress
  | CallMouseRelease
  | CallWheel.

Definition call (v : MainView M) (c : Call) : MainView M :=
  match c with
  | CallSetRotation rx ry rz => setRotation v rx ry rz
  | CallSetScale s => setScale v s
  | CallResizeGL w h => resizeGL v w h
  | CallPaintGL => v
  | CallKeyPress k => keyPressEvent v k
  | CallKeyRelease k => keyReleaseEvent v k
  | CallMouseDoubleClick => mouseDoubleClickEvent v
  | CallMouseMove => mouseMoveEvent v
  | CallMousePress => mousePressEvent v
  | CallMouseRelease => mouseReleaseEvent v
  | CallWheel => wheelEvent v
  end.

Definition calls (v : MainView M) (cs : list Call) : MainView M := fold_left call cs v.

(** The angles, the factor and the projection that a sequence of calls
    leaves: those of its last [setRotation], [setScale] and [resizeGL],
    or the ones before it. *)
Fixpoint angles_after (cs : list Call) (a : Z * Z * Z) : Z * Z * Z :=
  match cs with
  | [] => a
  | CallSetRotation rx ry rz :: cs' => angles_after cs' (rx, ry, rz)
  | _ :: cs' => angles_after cs' a
  end.

Fixpoint factor_after (cs : list Call) (s : float) : float :=
  match cs with
  | [] => s
  | CallSetScale s' :: cs' => factor_after cs' s'
  | _ :: cs' => factor_after cs' s
  end.

Fixpoint projection_after (cs : list Call) (p : M) : M :=
  match cs with
  | [] => p
  | CallResizeGL w h :: cs' =>
      projection_after cs'
        (perspective identity (float_of_Z 60)
           (SFdiv prec32 emax32 (float_of_Z w) (float_of_Z h))
           (float_ratio 1 5) (float_of_Z 20))
  | _ :: cs' => projection_after cs' p
  end.

Definition is_transform (c : Call) : bool :=
  match c with
  | CallSetRotation _ _ _ | CallSetScale _ => true
  | _ => false
  end.

Definition requests_update (c : Call) : bool :=
  match c with
  | CallResizeGL _ _ | CallPaintGL => false
  | _ => true
  end.

(** The matrices are those of the stored angles and factor. *)
Definition consistent (v : MainView M) : Prop :=
  model v =
    composed (float_of_Z (-2)) f0 (float_of_Z (-6)) (rotX v) (rotY v) (rotZ v) (scaling v) /\
  knotModel v =
    composed (float_of_Z 2) f0 (float_of_Z (-6)) (rotX v) (rotY v) (rotZ v) (scaling v).

End ViewCalls.

(** ** [class MainWindow] *)

Module Window.

(** A dial or a slider: its range and its value. *)
Record QAbstractSlider : Type := mkSlider {
  minimum : Z;
  maximum : Z;
  value : Z
}.

(** [QAbstractSlider::setValue]: the value is bounded to the range. *)
Definition setValue (w : QAbstractSlider) (v : Z) : QAbstractSlider :=
  mkSlider (minimum w) (maximum w) (Z.max (minimum w) (Z.min (maximum w) v)).

Record Ui (M : Type) : Type := mkUi {
  RotationDialX : QAbstractSlider;
  RotationDialY : QAbstractSlider;
  RotationDialZ : QAbstractSlider;
  ScaleSlider : QAbstractSlider;
  mainView : MainView M
}.

Arguments mkUi {M}.
Arguments RotationDialX {M}. Arguments RotationDialY {M}.
Arguments RotationDialZ {M}. Arguments ScaleSlider {M}.
Arguments mainView {M}.

Section Slots.

Context {M : Type} `{QMatrix4x4Ops M}.

Definition on_ResetRotationButton_clicked (ui : Ui M) : Ui M :=
  mkUi (setValue (RotationDialX ui) 0) (setValue (RotationDialY ui) 0)
       (setValue (RotationDialZ ui) 0) (ScaleSlider ui)
       (setRotation (mainView ui) 0 0 0).

Definition on_RotationDialX_sliderMoved (ui : Ui M) (v : Z) : Ui M :=
  mkUi (RotationDialX ui) (RotationDialY ui) (RotationDialZ ui) (ScaleSlider ui)
       (setRotation (mainView ui) v (value (RotationDialY ui)) (value (RotationDialZ ui))).

Definition on_RotationDialY_sliderMoved (ui : Ui M) (v : Z) : Ui M :=
  mkUi (RotationDialX ui) (RotationDialY ui) (RotationDialZ ui) (ScaleSlider ui)
       (setRotation (mainView ui) (value (RotationDialX ui)) v (value (RotationDialZ ui))).

Definition on_RotationDialZ_sliderMoved (ui : Ui M) (v : Z) : Ui M :=
  mkUi (RotationDialX ui) (RotationDialY ui) (RotationDialZ ui) (ScaleSlider ui)
       (setRotation (mainView ui) (value (RotationDialX ui)) (value (RotationDialY ui)) v).

(** The argument of [setScale] is the [int] 100, converted to [float]. *)
Definition on_ResetScaleButton_clicked (ui : Ui M) : Ui M :=
  mkUi (RotationDialX ui) (RotationDialY ui) (RotationDialZ ui)
       (setValue (ScaleSlider ui) 100)
       (setScale (mainView ui) (float_of_Z 100)).

(** [value / 100.0f]: the [int] is converted, the division is on floats. *)
Definition on_ScaleSlider_sliderMoved (ui : Ui M) (v : Z) : Ui M :=
  mkUi (RotationDialX ui) (RotationDialY ui) (RotationDialZ ui) (ScaleSlider ui)
       (setScale (mainView ui) (SFdiv prec32 emax32 (float_of_Z v) (float_of_Z 100))).

End Slots.

End Window.

(** * Facts *)

(** ** Machine integers *)

Lemma to_unsigned_range z : 0 <= Int.to_unsigned z < Int.UINT_MOD.
Proof. unfold Int.to_unsigned, Int.UINT_MOD. apply Z.mod_pos_bound. lia. Qed.

Lemma to_unsigned_small z : 0 <= z < Int.UINT_MOD -> Int.to_unsigned z = z.
Proof. unfold Int.to_unsigned. intros. apply Z.mod_small. lia. Qed.

Lemma to_unsigned_le z : 0 <= z -> Int.to_unsigned z <= z.
Proof. unfold Int.to_unsigned, Int.UINT_MOD. intros. apply Z.mod_le; lia. Qed.

Lemma to_unsigned_succ z :
  Int.to_unsigned (Int.to_unsigned z + 1) = Int.to_unsigned (z + 1).
Proof.
  unfold Int.to_unsigned, Int.UINT_MOD.
  rewrite Zplus_mod_idemp_l. reflexivity.
Qed.

Lemma to_int_small z : - 2 ^ 31 <= z <= Int.INT_MAX -> Int.to_int z = z.
Proof.
  unfold Int.to_int, Int.INT_MAX, Int.UINT_MOD. intros.
  rewrite Z.mod_small; lia.
Qed.

(** ** The comparison [==] is a partial equivalence *)

Lemma float_eqb_true a b :
  float_eqb a b = true <->
  (exists s1 s2, a = S754_zero s1 /\ b = S754_zero s2) \/ (a = b /\ a <> S754_nan).
Proof.
  unfold float_eqb, SFeqb.
  destruct a as [sa|sa| |sa ma ea], b as [sb|sb| |sb mb eb]; simpl.
  all: try (destruct sa); try (destruct sb).
  all: try solve [split; [discriminate | intros [(?&?&?&?)|[? ?]]; congruence]].
  all: try solve [split; [eauto | reflexivity]].
  all: try solve [split; [intros _; right; split; [reflexivity | discriminate] | reflexivity]].
  all: split;
    [ intros Hc; right; split; [|discriminate];
      destruct (Z.compare_spec ea eb) as [->| |]; try discriminate;
      fold (Pos.compare ma mb) in Hc;
      destruct (Pos.compare_spec ma mb) as [->| |]; try discriminate; reflexivity
    | intros [(?&?&?&?)|[Heq _]]; [discriminate|];
      injection Heq as -> ->; rewrite Z.compare_refl;
      fold (Pos.compare mb mb); rewrite Pos.compare_refl; reflexivity ].
Qed.

Lemma float_eqb_sym a b : float_eqb a b = float_eqb b a.
Proof.
  apply eq_true_iff_eq. rewrite !float_eqb_true.
  split; (intros [(s1 & s2 & -> & ->)|[-> ?]]; [left; eauto | right; auto]).
Qed.

Lemma float_eqb_trans a b c :
  float_eqb a b = true -> float_eqb b c = true -> float_eqb a c = true.
Proof.
  rewrite !float_eqb_true.
  intros [(s1 & s2 & -> & ->)|[-> ?]] [(s3 & s4 & ? & ->)|[<- ?]]; eauto.
Qed.

Lemma QVector3D_eqb_sym a b : QVector3D_eqb a b = QVector3D_eqb b a.
Proof.
  unfold QVector3D_eqb.
  rewrite (float_eqb_sym (vx a)), (float_eqb_sym (vy a)), (float_eqb_sym (vz a)).
  reflexivity.
Qed.

Lemma QVector3D_eqb_trans a b c :
  QVector3D_eqb a b = true -> QVector3D_eqb b c = true -> QVector3D_eqb a c = true.
Proof.
  unfold QVector3D_eqb. rewrite !andb_true_iff.
  intros [[? ?] ?] [[? ?] ?]. repeat split; eapply float_eqb_trans; eauto.
Qed.

(** ** Deduplication on lists *)

Section DedupFacts.

Context {A : Type} (eqb : A -> A -> bool).
Hypothesis eqb_sym : forall a b, eqb a b = eqb b a.
Hypothesis eqb_trans : forall a b c, eqb a b = true -> eqb b c = true -> eqb a c = true.

Lemma slot_of_Some l v k :
  slot_of eqb l v = Some k ->
  exists u, l !! k = Some u /\ eqb u v = true /\
            forall j w, (j < k)%nat -> l !! j = Some w -> eqb w v = false.
Proof.
  revert k. induction l as [|u l IH]; intros k; simpl; [discriminate|].
  destruct (eqb u v) eqn:E.
  - intros [= <-]. exists u. repeat split; auto. intros j w Hj. lia.
  - destruct (slot_of eqb l v) as [k'|] eqn:S; simpl; [|discriminate].
    intros [= <-]. destruct (IH k' eq_refl) as (w & Hw & Ew & Hfirst).
    exists w. repeat split; auto.
    intros [|j] w' Hj; simpl; [intros [= <-]; exact E|].
    apply Hfirst. lia.
Qed.

Lemma slot_of_None l v :
  slot_of eqb l v = None -> forall j w, l !! j = Some w -> eqb w v = false.
Proof.
  induction l as [|u l IH]; simpl; intros Hs j w; [rewrite lookup_nil; discriminate|].
  destruct (eqb u v) eqn:E; [discriminate|].
  destruct (slot_of eqb l v) eqn:S; [discriminate|].
  destruct j as [|j]; simpl; [intros [= <-]; exact E | apply IH; reflexivity].
Qed.

Lemma slot_of_is_Some l v j u :
  l !! j = Some u -> eqb u v = true -> is_Some (slot_of eqb l v).
Proof.
  intros Hl He. destruct (slot_of eqb l v) eqn:S; [eauto|].
  rewrite (slot_of_None _ _ S _ _ Hl) in He. discriminate.
Qed.

Lemma slot_of_unique l v j u :
  pairwise_distinct eqb l -> l !! j = Some u -> eqb u v = true ->
  slot_of eqb l v = Some j.
Proof.
  intros PD Hl He.
  destruct (slot_of_is_Some _ _ _ _ Hl He) as [k Hk].
  destruct (slot_of_Some _ _ _ Hk) as (w & Hw & Ew & _).
  destruct (decide (k = j)) as [->|Hne]; [exact Hk|].
  assert (eqb w u = true) as Hwu.
  { eapply eqb_trans; [exact Ew|]. rewrite eqb_sym. exact He. }
  rewrite (PD k j w u Hne Hw Hl) in Hwu. discriminate.
Qed.

Lemma pairwise_distinct_nil : pairwise_distinct eqb [].
Proof. intros i j a b _ Hi. rewrite lookup_nil in Hi. discriminate. Qed.

Lemma pairwise_distinct_snoc l v :
  pairwise_distinct eqb l -> slot_of eqb l v = None -> pairwise_distinct eqb (l ++ [v]).
Proof.
  intros PD Hn i j a b Hij Hi Hj.
  apply lookup_snoc_Some in Hi, Hj.
  destruct Hi as [[Hil Hi]|[-> <-]], Hj as [[Hjl Hj]|[-> <-]].
  - eapply PD; eauto.
  - eapply slot_of_None; eauto.
  - rewrite eqb_sym. eapply slot_of_None; eauto.
  - congruence.
Qed.

Lemma uniq_prefix fl verts : verts `prefix_of` uniq eqb fl verts.
Proof.
  revert verts. induction fl as [|v fl IH]; intros verts; simpl; [reflexivity|].
  destruct (slot_of eqb verts v); [apply IH|].
  etrans; [|apply IH]. apply prefix_app_r. reflexivity.
Qed.

Lemma uniq_lookup_old fl verts k u :
  verts !! k = Some u -> uniq eqb fl verts !! k = Some u.
Proof. intros Hk. eapply prefix_lookup_Some; [exact Hk | apply uniq_prefix]. Qed.

Lemma uniq_distinct fl verts :
  pairwise_distinct eqb verts -> pairwise_distinct eqb (uniq eqb fl verts).
Proof.
  revert verts. induction fl as [|v fl IH]; intros verts PD; simpl; [exact PD|].
  destruct (slot_of eqb verts v) eqn:S; [apply IH; exact PD|].
  apply IH. apply pairwise_distinct_snoc; assumption.
Qed.

Lemma slots_length fl verts : length (slots eqb fl verts) = length fl.
Proof.
  revert verts. induction fl as [|v fl IH]; intros verts; simpl; [reflexivity|].
  destruct (slot_of eqb verts v); simpl; rewrite IH; reflexivity.
Qed.

Lemma uniq_length fl verts :
  (length (uniq eqb fl verts) <= length verts + length fl)%nat.
Proof.
  revert verts. induction fl as [|v fl IH]; intros verts; simpl; [lia|].
  destruct (slot_of eqb verts v).
  - specialize (IH verts). lia.
  - specialize (IH (verts ++ [v])). rewrite length_app in IH. simpl in IH. lia.
Qed.

(** A place below [length verts] is a hit in [verts]. *)
Lemma slots_old fl verts q c k :
  fl !! q = Some c -> slots eqb fl verts !! q = Some k -> (k < length verts)%nat ->
  exists u, verts !! k = Some u /\ eqb u c = true.
Proof.
  revert verts q. induction fl as [|v fl IH]; intros verts q; simpl;
    [rewrite lookup_nil; discriminate|].
  destruct (slot_of eqb verts v) as [k0|] eqn:S.
  - destruct q as [|q]; simpl.
    + intros [= ->] [= ->] _.
      destruct (slot_of_Some _ _ _ S) as (u & ? & ? & _). eauto.
    + apply IH.
  - destruct q as [|q]; simpl.
    + intros _ [= <-]. lia.
    + intros Hc Hk Hlt.
      destruct (IH (verts ++ [v]) q Hc Hk) as (u & Hu & He).
      { rewrite length_app. lia. }
      rewrite lookup_app_l in Hu by exact Hlt. eauto.
Qed.

(** A corner that compares equal to an entry of [verts] takes its place. *)
Lemma slots_hit fl verts q c k j u :
  pairwise_distinct eqb verts ->
  fl !! q = Some c -> slots eqb fl verts !! q = Some k ->
  verts !! j = Some u -> eqb u c = true -> k = j.
Proof.
  revert verts q. induction fl as [|v fl IH]; intros verts q PD; simpl;
    [rewrite lookup_nil; discriminate|].
  destruct (slot_of eqb verts v) as [k0|] eqn:S.
  - destruct q as [|q]; simpl.
    + intros [= ->] [= ->] Hj He.
      rewrite (slot_of_unique _ _ _ _ PD Hj He) in S. congruence.
    + apply IH. exact PD.
  - destruct q as [|q]; simpl.
    + intros [= ->] _ Hj He.
      rewrite (slot_of_None _ _ S _ _ Hj) in He. discriminate.
    + intros Hc Hk Hj He.
      eapply (IH (verts ++ [v])); eauto using pairwise_distinct_snoc.
      apply lookup_app_l_Some. exact Hj.
Qed.

(** The entry at a corner's place is the corner, or compares equal to it. *)
Lemma slots_lookup fl verts q c k :
  fl !! q = Some c -> slots eqb fl verts !! q = Some k ->
  exists u, uniq eqb fl verts !! k = Some u /\ (c = u \/ eqb c u = true).
Proof.
  revert verts q. induction fl as [|v fl IH]; intros verts q; simpl;
    [rewrite lookup_nil; discriminate|].
  destruct (slot_of eqb verts v) as [k0|] eqn:S.
  - destruct q as [|q]; simpl.
    + intros [= ->] [= ->].
      destruct (slot_of_Some _ _ _ S) as (u & Hu & He & _).
      exists u. split; [apply uniq_lookup_old; exact Hu|].
      right. rewrite eqb_sym. exact He.
    + apply IH.
  - destruct q as [|q]; simpl.
    + intros [= ->] [= <-]. exists c. split; [|left; reflexivity].
      apply uniq_lookup_old. apply list_lookup_middle. reflexivity.
    + apply IH.
Qed.

(** Two corners share a place exactly when they compare equal. *)
Lemma slots_share_lt fl verts p q cp cq kp kq :
  pairwise_distinct eqb verts -> (p < q)%nat ->
  fl !! p = Some cp -> fl !! q = Some cq ->
  slots eqb fl verts !! p = Some kp -> slots eqb fl verts !! q = Some kq ->
  (kp = kq <-> eqb cp cq = true).
Proof.
  revert verts p q. induction fl as [|v fl IH]; intros verts p q PD Hpq; simpl;
    [rewrite lookup_nil; discriminate|].
  destruct q as [|q]; [lia|].
  destruct (slot_of eqb verts v) as [k0|] eqn:S.
  - destruct p as [|p]; simpl.
    + intros [= ->] Hcq [= ->] Hkq.
      destruct (slot_of_Some _ _ _ S) as (u & Hu & He & _).
      split.
      * intros ->.
        destruct (slots_old _ _ _ _ _ Hcq Hkq) as (u' & Hu' & He').
        { eapply lookup_lt_Some; eauto. }
        assert (u' = u) as -> by congruence.
        eapply eqb_trans; [|exact He']. rewrite eqb_sym. exact He.
      * intros Hpqe. symmetry.
        eapply (slots_hit _ _ _ _ _ _ _ PD Hcq Hkq Hu).
        eapply eqb_trans; eauto.
    + apply IH; [exact PD | lia].
  - destruct p as [|p]; simpl.
    + intros [= ->] Hcq [= <-] Hkq.
      assert ((verts ++ [cp]) !! length verts = Some cp) as Hmid
        by (apply list_lookup_middle; reflexivity).
      split.
      * intros Hk. subst kq.
        destruct (slots_old _ _ _ _ _ Hcq Hkq) as (u' & Hu' & He').
        { rewrite length_app. simpl. lia. }
        congruence.
      * intros Hpqe. symmetry.
        eapply (slots_hit fl (verts ++ [cp]) q cq kq (length verts) cp);
          [apply pairwise_distinct_snoc; assumption | exact Hcq | exact Hkq
          | exact Hmid | exact Hpqe].
    + apply IH; [apply pairwise_distinct_snoc; assumption | lia].
Qed.

Lemma slots_share fl verts p q cp cq kp kq :
  pairwise_distinct eqb verts -> p <> q ->
  fl !! p = Some cp -> fl !! q = Some cq ->
  slots eqb fl verts !! p = Some kp -> slots eqb fl verts !! q = Some kq ->
  (kp = kq <-> eqb cp cq = true).
Proof.
  intros PD Hne Hcp Hcq Hkp Hkq.
  destruct (decide (p < q)%nat) as [Hlt|Hge].
  - eapply slots_share_lt; eauto.
  - rewrite eqb_sym.
    etrans; [|eapply (slots_share_lt fl verts q p); eauto; lia].
    split; congruence.
Qed.

(** [uniq] keeps the corners in order of first occurrence. *)
Lemma uniq_first_occurrences_from fl seen verts :
  (forall c, existsb (fun d => eqb d c) seen = existsb (fun u => eqb u c) verts) ->
  uniq eqb fl verts = verts ++ first_occurrences eqb seen fl.
Proof.
  revert seen verts. induction fl as [|v fl IH]; intros seen verts Hsame; simpl;
    [rewrite app_nil_r; reflexivity|].
  rewrite Hsame.
  destruct (slot_of eqb verts v) as [k|] eqn:S.
  - destruct (slot_of_Some _ _ _ S) as (u & Hu & He & _).
    assert (existsb (fun u => eqb u v) verts = true) as ->.
    { apply existsb_exists. exists u. split; [|exact He].
      apply list_elem_of_In. eapply list_elem_of_lookup_2; eauto. }
    apply IH. intros c. rewrite existsb_app, Hsame. simpl.
    destruct (eqb v c) eqn:Evc; [|rewrite !orb_false_r; reflexivity].
    rewrite orb_true_r. symmetry. apply existsb_exists. exists u.
    split; [apply list_elem_of_In; eapply list_elem_of_lookup_2; eauto|].
    eapply eqb_trans; eauto.
  - assert (existsb (fun u => eqb u v) verts = false) as ->.
    { apply not_true_is_false. intros Hex. apply existsb_exists in Hex.
      destruct Hex as (u & Hin & He). apply list_elem_of_In, list_elem_of_lookup_1 in Hin.
      destruct Hin as [j Hj]. rewrite (slot_of_None _ _ S _ _ Hj) in He. discriminate. }
    rewrite (IH (seen ++ [v]) (verts ++ [v])).
    + rewrite <- app_assoc. reflexivity.
    + intros c. rewrite !existsb_app, Hsame. reflexivity.
Qed.

Lemma uniq_first_occurrences fl : uniq eqb fl [] = first_occurrences eqb [] fl.
Proof. apply (uniq_first_occurrences_from fl [] []). reflexivity. Qed.

End DedupFacts.

(** ** Qt containers *)

Lemma split_cons sep s : exists t ts, Qt.split sep s = t :: ts.
Proof.
  induction s as [|c s (t & ts & IH)]; simpl; [eauto|].
  destruct (Ascii.eqb c sep); [eauto|]. rewrite IH. eauto.
Qed.

Lemma contains_slot_of {A} (eqb : A -> A -> bool) l v :
  Qt.contains eqb l v = match slot_of eqb l v with Some _ => true | None => false end.
Proof.
  unfold Qt.contains. induction l as [|u l IH]; simpl; [reflexivity|].
  destruct (eqb u v); simpl; [reflexivity|].
  rewrite IH. destruct (slot_of eqb l v); reflexivity.
Qed.

Lemma indexOf_from_slot_of {A} (eqb : A -> A -> bool) l v i :
  Qt.indexOf_from eqb l v i =
  match slot_of eqb l v with Some k => i + Z.of_nat k | None => -1 end.
Proof.
  revert i. induction l as [|u l IH]; intros i; simpl; [reflexivity|].
  destruct (eqb u v); [lia|].
  rewrite IH. destruct (slot_of eqb l v); simpl; lia.
Qed.

Lemma indexOf_slot_of {A} (eqb : A -> A -> bool) l v k :
  slot_of eqb l v = Some k -> Qt.indexOf eqb l v = Z.of_nat k.
Proof. intros S. unfold Qt.indexOf. rewrite indexOf_from_slot_of, S. lia. Qed.

Lemma at_resolve (cs : list QVector3D) i :
  Qt.at_ cs i =
  match (if 0 <=? i then cs !! Z.to_nat i else None) with
  | Some v => Done v
  | None => Fault
  end.
Proof. unfold Qt.at_, Qt.at_nat. destruct (0 <=? i); reflexivity. Qed.

Lemma resolve_cons (cs : list QVector3D) i idx :
  resolve cs (i :: idx) =
  match (if 0 <=? i then cs !! Z.to_nat i else None) with
  | Some v => match resolve cs idx with Some fl => Some (v :: fl) | None => None end
  | None => None
  end.
Proof.
  unfold resolve. simpl.
  destruct (if 0 <=? i then cs !! Z.to_nat i else None); simpl; [|reflexivity].
  destruct (mapM _ idx); reflexivity.
Qed.

Lemma resolve_length (cs : list QVector3D) idx fl : resolve cs idx = Some fl -> length fl = length idx.
Proof.
  revert fl. induction idx as [|i idx IH]; intros fl.
  - intros [= <-]. reflexivity.
  - rewrite resolve_cons.
    destruct (if 0 <=? i then cs !! Z.to_nat i else None); [|discriminate].
    destruct (resolve cs idx) as [fl'|]; [|discriminate].
    intros [= <-]. simpl. rewrite (IH fl' eq_refl). reflexivity.
Qed.

Lemma resolve_in_range (cs : list QVector3D) idx :
  Forall (fun i => 0 <= i < Z.of_nat (length cs)) idx -> is_Some (resolve cs idx).
Proof.
  induction 1 as [|i idx Hi _ [fl IH]]; [eexists; reflexivity|].
  rewrite resolve_cons, IH.
  destruct (Z.leb_spec 0 i); [|lia].
  destruct (lookup_lt_is_Some_2 cs (Z.to_nat i)) as [v ->]; [lia|]. eauto.
Qed.

Lemma resolve_out_of_range (cs : list QVector3D) idx k :
  k ∈ idx -> Z.of_nat (length cs) <= k -> resolve cs idx = None.
Proof.
  intros Hin Hk. induction idx as [|i idx IH]; [inversion Hin|].
  rewrite resolve_cons. apply elem_of_cons in Hin as [<-|Hin].
  - destruct (0 <=? k); [|reflexivity].
    rewrite lookup_ge_None_2 by lia. reflexivity.
  - rewrite (IH Hin). destruct (if 0 <=? i then _ else _); reflexivity.
Qed.

Lemma resolve_Forall2 (cs : list QVector3D) idx fl :
  resolve cs idx = Some fl <->
  Forall2 (fun i c => 0 <= i /\ cs !! Z.to_nat i = Some c) idx fl.
Proof.
  revert fl. induction idx as [|i idx IH]; intros fl.
  - split; [intros [= <-]; constructor | intros HF; inversion HF; reflexivity].
  - rewrite resolve_cons. split.
    + destruct (Z.leb_spec 0 i); [|discriminate].
      destruct (cs !! Z.to_nat i) as [c|] eqn:Hc; [|discriminate].
      destruct (resolve cs idx) as [fl'|]; [|discriminate].
      intros [= <-]. constructor; [auto | apply IH; reflexivity].
    + intros HF. inversion HF as [|i0 c idx0 fl' [Hi Hc] Hrest]; subst.
      destruct (Z.leb_spec 0 i); [|lia]. rewrite Hc.
      apply IH in Hrest. rewrite Hrest. reflexivity.
Qed.

Lemma resolve_lookup (cs : list QVector3D) idx fl i k :
  resolve cs idx = Some fl -> idx !! i = Some k ->
  exists c, fl !! i = Some c /\ 0 <= k /\ cs !! Z.to_nat k = Some c.
Proof.
  intros Hr Hk. apply resolve_Forall2 in Hr.
  destruct (Forall2_lookup_l _ _ _ _ _ Hr Hk) as (c & Hc & ? & ?). eauto.
Qed.

Lemma resolve_elem_of (cs : list QVector3D) idx fl c :
  resolve cs idx = Some fl -> c ∈ fl -> c ∈ cs.
Proof.
  intros Hr Hin. apply resolve_Forall2 in Hr.
  apply list_elem_of_lookup in Hin as [i Hi].
  destruct (Forall2_lookup_r _ _ _ _ _ Hr Hi) as (k & _ & _ & Hc).
  eapply list_elem_of_lookup_2; eauto.
Qed.

(** ** The loops of [unpackIndexes] and [alignData] *)

Lemma unpack_loop_resolve (cs : list QVector3D) idx out :
  unpack_loop cs idx out =
  match resolve cs idx with Some fl => Done (out ++ fl) | None => Fault end.
Proof.
  revert out. induction idx as [|i idx IH]; intros out.
  - simpl. rewrite app_nil_r. reflexivity.
  - rewrite resolve_cons. simpl. rewrite at_resolve.
    destruct (if 0 <=? i then cs !! Z.to_nat i else None) as [v|]; simpl; [|reflexivity].
    rewrite IH. destruct (resolve cs idx); [|reflexivity].
    rewrite <- app_assoc. reflexivity.
Qed.

Lemma align_loop_resolve (cs : list QVector3D) idx verts ind :
  align_loop cs idx verts ind (Int.to_unsigned (Z.of_nat (length verts))) =
  match resolve cs idx with
  | Some fl =>
      Done (uniq QVector3D_eqb fl verts,
            ind ++ map (fun k => Int.to_unsigned (Z.of_nat k)) (slots QVector3D_eqb fl verts))
  | None => Fault
  end.
Proof.
  revert verts ind. induction idx as [|i idx IH]; intros verts ind.
  - simpl. rewrite app_nil_r. reflexivity.
  - rewrite resolve_cons. simpl. rewrite at_resolve.
    destruct (if 0 <=? i then cs !! Z.to_nat i else None) as [v|]; simpl; [|reflexivity].
    rewrite contains_slot_of.
    destruct (slot_of QVector3D_eqb verts v) as [k|] eqn:S.
    + rewrite (indexOf_slot_of _ _ _ _ S), IH.
      destruct (resolve cs idx); [|reflexivity].
      simpl. rewrite S. simpl. rewrite <- app_assoc. reflexivity.
    + rewrite to_unsigned_succ.
      replace (Z.of_nat (length verts) + 1) with (Z.of_nat (length (verts ++ [v])))
        by (rewrite length_app; simpl; lia).
      rewrite IH. destruct (resolve cs idx); [|reflexivity].
      simpl. rewrite S. simpl. rewrite <- app_assoc. reflexivity.
Qed.

(** ** The loader, line by line *)

Section LoaderFacts.

Variable toFloat : string -> float.
Variable toUInt : string -> Z.

Lemma faceIndex_ok t : faceIndex toUInt t = Done (stored_index (face_ref toUInt t)).
Proof.
  unfold faceIndex, face_ref, Qt.at_nat.
  destruct (split_cons SLASH t) as (e0 & es & ->). reflexivity.
Qed.

Lemma parseFace_loop_ok rest ind :
  parseFace_loop toUInt rest ind =
  Done (ind ++ map (fun t => stored_index (face_ref toUInt t)) rest).
Proof.
  revert ind. induction rest as [|t rest IH]; intros ind; simpl.
  - rewrite app_nil_r. reflexivity.
  - rewrite faceIndex_ok. simpl. rewrite IH, <- app_assoc. reflexivity.
Qed.

Lemma vertex_count_cons l ls :
  vertex_count (l :: ls) = ((if is_tagged "v" l then 1 else 0) + vertex_count ls)%nat.
Proof.
  unfold vertex_count. rewrite filter_cons.
  destruct (is_tagged "v" l); reflexivity.
Qed.

Lemma face_count_cons l ls :
  face_count (l :: ls) = ((if is_tagged "f" l then 1 else 0) + face_count ls)%nat.
Proof.
  unfold face_count. rewrite filter_cons.
  destruct (is_tagged "f" l); reflexivity.
Qed.

(** The three shapes of a line that is no comment and has a first token. *)
Lemma tagged_cases line t args :
  is_comment line = false -> tokens_of line = t :: args ->
  (t = "v"%string /\ is_tagged "v" line = true /\ is_tagged "f" line = false) \/
  (t = "f"%string /\ is_tagged "v" line = false /\ is_tagged "f" line = true) \/
  (t <> "v"%string /\ t <> "f"%string /\
   is_tagged "v" line = false /\ is_tagged "f" line = false).
Proof.
  intros Hc Ht. unfold is_tagged, tag_of. rewrite Hc, Ht. simpl.
  destruct (String.eqb_spec t "v") as [->|Hv]; [left; auto|].
  destruct (String.eqb_spec t "f") as [->|Hf]; [right; left; auto|].
  right; right; auto.
Qed.

Lemma comment_untagged line tag : is_comment line = true -> is_tagged tag line = false.
Proof. intros Hc. unfold is_tagged, tag_of. rewrite Hc. reflexivity. Qed.

Lemma processLine_valid arity range line m :
  valid_line toUInt arity range line = true ->
  processLine toFloat toUInt line m =
  Done (mkModel (coordsIndexed m ++ line_positions toFloat line)
                (indices m ++ map stored_index (line_refs toUInt line))
                (coords m)).
Proof.
  unfold valid_line, processLine, line_positions, line_refs.
  fold (is_comment line). fold (tokens_of line).
  destruct (is_comment line) eqn:Hc.
  - intros _. rewrite !(comment_untagged _ _ Hc), !app_nil_r. destruct m; reflexivity.
  - destruct (tokens_of line) as [|t args] eqn:Ht; [discriminate|].
    destruct (tagged_cases _ _ _ Hc Ht) as [(-> & -> & ->)|[(-> & -> & ->)|(Hv & Hf & -> & ->)]];
      simpl.
    + intros Hlen.
      destruct args as [|t1 [|t2 [|t3 args]]]; simpl in Hlen; try discriminate.
      unfold parseVertex. simpl. rewrite app_nil_r. reflexivity.
    + intros _. unfold parseFace. rewrite parseFace_loop_ok. simpl.
      rewrite app_nil_r, map_map. reflexivity.
    + intros _. apply String.eqb_neq in Hv, Hf. rewrite Hv, Hf, !app_nil_r.
      destruct m; reflexivity.
Qed.

Lemma readLines_valid arity range lines m :
  forallb (valid_line toUInt arity range) lines = true ->
  readLines toFloat toUInt lines m =
  Done (mkModel (coordsIndexed m ++ positions toFloat lines)
                (indices m ++ map stored_index (face_refs toUInt lines))
                (coords m)).
Proof.
  revert m. induction lines as [|line lines IH]; intros m; simpl.
  - intros _. unfold positions, face_refs. simpl. rewrite !app_nil_r.
    destruct m; reflexivity.
  - rewrite andb_true_iff. intros [Hline Hlines].
    rewrite (processLine_valid _ _ _ _ Hline). simpl.
    rewrite (IH _ Hlines). simpl.
    unfold positions, face_refs. simpl.
    rewrite map_app, <- !app_assoc. reflexivity.
Qed.

Lemma valid_positions_length arity range lines :
  forallb (valid_line toUInt arity range) lines = true ->
  length (positions toFloat lines) = vertex_count lines.
Proof.
  induction lines as [|line lines IH]; [reflexivity|].
  simpl. rewrite andb_true_iff. intros [Hline Hlines].
  rewrite vertex_count_cons. unfold positions in *. simpl.
  rewrite length_app, (IH Hlines). f_equal.
  unfold valid_line in Hline. unfold line_positions.
  destruct (is_comment line) eqn:Hc; [rewrite (comment_untagged _ _ Hc); reflexivity|].
  destruct (tokens_of line) as [|t args] eqn:Ht; [discriminate|].
  destruct (tagged_cases _ _ _ Hc Ht) as [(-> & -> & _)|[(_ & -> & _)|(_ & _ & -> & _)]];
    try reflexivity.
  simpl in *. destruct args as [|t1 [|t2 [|t3 args]]]; try discriminate. reflexivity.
Qed.

Lemma valid_line_refs arity range line :
  valid_line toUInt arity range line = true ->
  Forall (fun ref => range ref = true) (line_refs toUInt line) /\
  (is_tagged "f" line = true -> arity (length (line_refs toUInt line)) = true) /\
  (is_tagged "f" line = false -> line_refs toUInt line = []).
Proof.
  unfold valid_line, line_refs.
  destruct (is_comment line) eqn:Hc.
  { rewrite (comment_untagged _ _ Hc). intros _. repeat split; auto; discriminate. }
  destruct (tokens_of line) as [|t args] eqn:Ht; [discriminate|].
  destruct (tagged_cases _ _ _ Hc Ht) as [(-> & _ & ->)|[(-> & _ & ->)|(_ & _ & _ & ->)]];
    simpl; try (intros _; repeat split; auto; discriminate).
  rewrite andb_true_iff, forallb_forall. intros [Har Hall].
  repeat split; [|intros _; rewrite length_map; exact Har|discriminate].
  apply Forall_forall. intros ref Hin. apply list_elem_of_fmap in Hin as (a & -> & Hin).
  apply list_elem_of_In, Hall in Hin. exact Hin.
Qed.

Lemma valid_refs_range arity range lines :
  forallb (valid_line toUInt arity range) lines = true ->
  Forall (fun ref => range ref = true) (face_refs toUInt lines).
Proof.
  induction lines as [|line lines IH]; simpl; [intros _; constructor|].
  rewrite andb_true_iff. intros [Hline Hlines].
  unfold face_refs. simpl. apply Forall_app. split; [|apply IH, Hlines].
  apply (valid_line_refs _ _ _ Hline).
Qed.

Lemma triangular_refs_count range lines :
  forallb (valid_line toUInt triangular range) lines = true ->
  length (face_refs toUInt lines) = (3 * face_count lines)%nat.
Proof.
  induction lines as [|line lines IH]; [reflexivity|].
  simpl. rewrite andb_true_iff. intros [Hline Hlines].
  rewrite face_count_cons. unfold face_refs in *. simpl.
  rewrite length_app, (IH Hlines).
  destruct (valid_line_refs _ _ _ Hline) as (_ & Hf & Hnf).
  destruct (is_tagged "f" line).
  - specialize (Hf eq_refl). apply Nat.eqb_eq in Hf. lia.
  - rewrite (Hnf eq_refl). simpl. lia.
Qed.

Lemma any_arity_of_triangular range line :
  valid_line toUInt triangular range line = true ->
  valid_line toUInt any_arity range line = true.
Proof.
  unfold valid_line. destruct (is_comment line); [reflexivity|].
  destruct (tokens_of line) as [|t args]; [discriminate|].
  destruct (String.eqb t "v"); [auto|].
  destruct (String.eqb t "f"); [|auto].
  rewrite !andb_true_iff. intros [_ ?]. auto.
Qed.

Lemma loadable_of_valid lines :
  valid_source toUInt lines = true -> loadable_source toUInt lines = true.
Proof.
  unfold valid_source, loadable_source. rewrite !forallb_forall.
  intros Hv l Hl. apply any_arity_of_triangular, Hv, Hl.
Qed.

Lemma stored_index_in_range npos ref :
  within npos ref = true -> 0 <= stored_index ref < Z.of_nat npos.
Proof.
  unfold within. rewrite andb_true_iff. intros [H1 H2]. unfold stored_index.
  pose proof (to_unsigned_range (ref - 1)).
  pose proof (to_unsigned_le (ref - 1)). lia.
Qed.

(** A reference of the [unsigned] range that is not within [1 .. npos]
    is stored as an index outside a list of [npos] positions. *)
Lemma stored_index_outside npos ref :
  0 <= ref < Int.UINT_MOD -> Z.of_nat npos < Int.UINT_MOD ->
  within npos ref = false -> Z.of_nat npos <= stored_index ref.
Proof.
  unfold within, stored_index, Int.to_unsigned, Int.UINT_MOD.
  intros Hr Hn Hw. apply andb_false_iff in Hw as [Hw|Hw].
  - apply Z.leb_gt in Hw. assert (ref = 0) as -> by lia.
    change ((0 - 1) mod 2 ^ 32) with (2 ^ 32 - 1). lia.
  - apply Z.leb_gt in Hw. rewrite Z.mod_small by lia. lia.
Qed.

(** What the constructor returns on a source that it can load. *)
Lemma Model_ctor_loadable lines :
  loadable_source toUInt lines = true ->
  exists fl,
    resolve (positions toFloat lines) (map stored_index (face_refs toUInt lines)) = Some fl /\
    Model_ctor toFloat toUInt (Some lines) =
    Done (mkModel (uniq QVector3D_eqb fl [])
                  (map (fun k => Int.to_unsigned (Z.of_nat k)) (slots QVector3D_eqb fl []))
                  fl).
Proof.
  intros Hl. unfold loadable_source in Hl.
  destruct (resolve_in_range (positions toFloat lines)
              (map stored_index (face_refs toUInt lines))) as [fl Hfl].
  { rewrite (valid_positions_length _ _ _ Hl). apply Forall_map.
    eapply Forall_impl; [apply (valid_refs_range _ _ _ Hl)|].
    intros ref. apply stored_index_in_range. }
  exists fl. split; [exact Hfl|].
  unfold Model_ctor. rewrite (readLines_valid _ _ _ _ Hl). simpl.
  unfold unpackIndexes. simpl. rewrite unpack_loop_resolve, Hfl. simpl.
  unfold alignData. simpl.
  rewrite (align_loop_resolve _ _ [] []), Hfl. reflexivity.
Qed.

End LoaderFacts.

(** ** No function of the loader raises *)

Lemma never_raises_bind {A B : Type} (r : run A) (k : A -> run B) :
  never_raises r -> (forall a, never_raises (k a)) -> never_raises (r ≫= k).
Proof.
  intros Hr Hk e. destruct r as [a| |]; simpl.
  - apply Hk.
  - destruct (Hr e0 eq_refl).
  - discriminate.
Qed.

Lemma never_raises_Done {A : Type} (a : A) : never_raises (Done a).
Proof. intros e. discriminate. Qed.

Lemma never_raises_Fault {A : Type} : never_raises (@Fault A).
Proof. intros e. discriminate. Qed.

Lemma never_raises_at_nat {A : Type} (l : list A) i : never_raises (Qt.at_nat l i).
Proof. unfold Qt.at_nat. destruct (l !! i); intros e; discriminate. Qed.

Lemma never_raises_at {A : Type} (l : list A) i : never_raises (Qt.at_ l i).
Proof.
  unfold Qt.at_. destruct (0 <=? i);
    [apply never_raises_at_nat | apply never_raises_Fault].
Qed.

Create HintDb raise.

#[local] Hint Resolve never_raises_Done never_raises_Fault never_raises_at_nat
  never_raises_at : raise.

Section NeverRaises.

Variable toFloat : string -> float.
Variable toUInt : string -> Z.

Lemma never_raises_parseFace_loop rest ind :
  never_raises (parseFace_loop toUInt rest ind).
Proof. rewrite parseFace_loop_ok. auto with raise. Qed.

Lemma never_raises_processLine line m :
  never_raises (processLine toFloat toUInt line m).
Proof.
  unfold processLine. destruct (Qt.startsWith line "#"); [auto with raise|].
  apply never_raises_bind; [auto with raise|]. intros t0.
  destruct (String.eqb t0 "v").
  - unfold parseVertex.
    repeat (apply never_raises_bind; [auto with raise|]; intros ?). auto with raise.
  - destruct (String.eqb t0 "f"); [|auto with raise].
    unfold parseFace. destruct (Qt.split_skip SPACE line); [auto with raise|].
    apply never_raises_bind; [apply never_raises_parseFace_loop|]. auto with raise.
Qed.

Lemma never_raises_readLines lines m :
  never_raises (readLines toFloat toUInt lines m).
Proof.
  revert m. induction lines as [|line lines IH]; intros m; simpl; [auto with raise|].
  apply never_raises_bind; [apply never_raises_processLine | exact IH].
Qed.

Lemma never_raises_Model_ctor file : never_raises (Model_ctor toFloat toUInt file).
Proof.
  destruct file as [lines|]; simpl; [|auto with raise].
  apply never_raises_bind; [apply never_raises_readLines|]. intros m.
  apply never_raises_bind.
  - unfold unpackIndexes. rewrite unpack_loop_resolve.
    destruct (resolve _ _); simpl; auto with raise.
  - intros m'. unfold alignData.
    rewrite (align_loop_resolve _ _ [] []).
    destruct (resolve _ _); simpl; auto with raise.
Qed.

End NeverRaises.

(** * The mesh loader and indexer *)

Section MeshClaims.

Variable toFloat : string -> float.
Variable toUInt : string -> Z.

Lemma valid_source_refs_count lines :
  valid_source toUInt lines = true ->
  length (face_refs toUInt lines) = (3 * face_count lines)%nat.
Proof. apply triangular_refs_count. Qed.

(** The places given to the corners are below the length of the unique
    list, so storing them as [unsigned] keeps them when the corners are
    fewer than 2^32. *)
Lemma slots_below (fl : list QVector3D) p k :
  slots QVector3D_eqb fl [] !! p = Some k ->
  (k < length (uniq QVector3D_eqb fl []))%nat /\ (k < length fl)%nat.
Proof.
  intros Hk.
  assert (is_Some (fl !! p)) as [c Hc].
  { apply lookup_lt_is_Some. rewrite <- (slots_length QVector3D_eqb fl []).
    eapply lookup_lt_Some; eauto. }
  destruct (slots_lookup QVector3D_eqb QVector3D_eqb_sym fl [] p c k Hc Hk) as (u & Hu & _).
  apply lookup_lt_Some in Hu. split; [exact Hu|].
  pose proof (uniq_length QVector3D_eqb fl []). simpl in *. lia.
Qed.

(** The entry at the place of a corner compares equal to the corner, or
    is the corner itself when the corner compares equal to nothing. *)
Lemma slot_entry (fl : list QVector3D) p c n :
  Z.of_nat (length fl) <= Int.INT_MAX ->
  fl !! p = Some c -> slots QVector3D_eqb fl [] !! p = Some n ->
  exists u,
    Qt.at_ (uniq QVector3D_eqb fl []) (Int.to_unsigned (Z.of_nat n)) = Done u /\
    (QVector3D_eqb c c = true -> QVector3D_eqb c u = true) /\
    (QVector3D_eqb c c = false -> c = u).
Proof.
  intros Hlen Hc Hn.
  destruct (slots_lookup QVector3D_eqb QVector3D_eqb_sym fl [] p c n Hc Hn)
    as (u & Hu & Hsame).
  exists u. split; [|split].
  - destruct (slots_below _ _ _ Hn) as [_ Hnl]. unfold Int.INT_MAX in Hlen.
    rewrite to_unsigned_small by (unfold Int.UINT_MOD; lia).
    unfold Qt.at_, Qt.at_nat.
    destruct (Z.leb_spec 0 (Z.of_nat n)); [|lia].
    rewrite Nat2Z.id, Hu. reflexivity.
  - intros Hcc. destruct Hsame as [<-|He]; assumption.
  - intros Hcc. destruct Hsame as [<-|He]; [reflexivity|].
    rewrite (QVector3D_eqb_trans c u c He) in Hcc; [discriminate|].
    rewrite QVector3D_eqb_sym. exact He.
Qed.

(** C1. On a valid mesh source the constructor returns a model whose
    flat array is the corner sequence of the source (the position of
    each face reference, in file order) and whose unique coordinate list
    holds no two positions that compare equal with [==] and lists the
    positions of that sequence in order of first occurrence. The index
    of a corner is the place of an entry that compares equal to the
    corner (the corner itself when it has a NaN component), and two
    corners have the same index exactly when their positions compare
    equal with [==]: an equal position reuses the index, a position
    that differs in a component keeps an entry of its own. *)
Theorem getCoords_exact_first_seen lines :
  valid_source toUInt lines = true ->
  int_sized toUInt lines ->
  exists m,
    Model_ctor toFloat toUInt (Some lines) = Done m /\
    length (getMeshCoords m) = length (face_refs toUInt lines) /\
    (forall i ref,
       face_refs toUInt lines !! i = Some ref ->
       (ref <= Int.UINT_MOD -> stored_index ref = ref - 1) /\
       exists c,
         getMeshCoords m !! i = Some c /\
         positions toFloat lines !! Z.to_nat (stored_index ref) = Some c) /\
    pairwise_distinct QVector3D_eqb (getCoords m) /\
    getCoords m = first_occurrences QVector3D_eqb [] (getMeshCoords m) /\
    (forall p cp,
       getMeshCoords m !! p = Some cp ->
       exists kp u,
         getTriangleIndices m !! p = Some kp /\
         Qt.at_ (getCoords m) kp = Done u /\
         (QVector3D_eqb cp cp = true -> QVector3D_eqb cp u = true) /\
         (QVector3D_eqb cp cp = false -> cp = u)) /\
    forall p q cp cq,
      p <> q ->
      getMeshCoords m !! p = Some cp -> getMeshCoords m !! q = Some cq ->
      exists kp kq,
        getTriangleIndices m !! p = Some kp /\
        getTriangleIndices m !! q = Some kq /\
        (kp = kq <-> QVector3D_eqb cp cq = true).
Proof.
  intros Hv Hsize.
  destruct (Model_ctor_loadable toFloat toUInt lines (loadable_of_valid _ _ Hv))
    as (fl & Hfl & Hctor).
  eexists. split; [exact Hctor|].
  unfold getCoords, getMeshCoords, getTriangleIndices. simpl.
  assert (Z.of_nat (length fl) <= Int.INT_MAX) as Hlen.
  { rewrite (resolve_length _ _ _ Hfl), length_map. exact Hsize. }
  split; [rewrite (resolve_length _ _ _ Hfl), length_map; reflexivity|].
  split; [|split; [|split; [|split]]].
  - intros i ref Href. split.
    + intros Hmax. unfold stored_index. apply to_unsigned_small.
      pose proof (valid_refs_range toUInt triangular (within (vertex_count lines)) lines Hv)
        as Hrange.
      rewrite Forall_forall in Hrange.
      assert (within (vertex_count lines) ref = true) as Hw.
      { apply Hrange. eapply list_elem_of_lookup_2; eauto. }
      unfold within in Hw. apply andb_true_iff in Hw as [H1 _]. lia.
    + destruct (resolve_lookup _ _ _ i (stored_index ref) Hfl) as (c & Hc & _ & Hpos).
      { rewrite list_lookup_fmap, Href. reflexivity. }
      eauto.
  - apply uniq_distinct; [exact QVector3D_eqb_sym | apply pairwise_distinct_nil].
  - apply uniq_first_occurrences. exact QVector3D_eqb_trans.
  - intros p cp Hp.
    destruct (lookup_lt_is_Some_2 (slots QVector3D_eqb fl []) p) as [np Hnp].
    { rewrite slots_length. eapply lookup_lt_Some; eauto. }
    destruct (slot_entry fl p cp np Hlen Hp Hnp) as (u & Hu & Hnum & Hnan).
    exists (Int.to_unsigned (Z.of_nat np)), u.
    rewrite list_lookup_fmap, Hnp. repeat split; assumption.
  - intros p q cp cq Hpq Hp Hq.
    destruct (lookup_lt_is_Some_2 (slots QVector3D_eqb fl []) p) as [np Hnp].
    { rewrite slots_length. eapply lookup_lt_Some; eauto. }
    destruct (lookup_lt_is_Some_2 (slots QVector3D_eqb fl []) q) as [nq Hnq].
    { rewrite slots_length. eapply lookup_lt_Some; eauto. }
    exists (Int.to_unsigned (Z.of_nat np)), (Int.to_unsigned (Z.of_nat nq)).
    rewrite !list_lookup_fmap, Hnp, Hnq. repeat split; try reflexivity.
    + intros Heq.
      apply (slots_share QVector3D_eqb QVector3D_eqb_sym QVector3D_eqb_trans
               fl [] p q cp cq np nq); auto using pairwise_distinct_nil.
      destruct (slots_below _ _ _ Hnp) as [_ Hp'], (slots_below _ _ _ Hnq) as [_ Hq'].
      unfold Int.INT_MAX in Hlen.
      rewrite !to_unsigned_small in Heq by (unfold Int.UINT_MOD; lia). lia.
    + intros Heq. f_equal. f_equal.
      apply (slots_share QVector3D_eqb QVector3D_eqb_sym QVector3D_eqb_trans
               fl [] p q cp cq np nq); auto using pairwise_distinct_nil.
Qed.

(** C2. On a valid mesh source with F face lines the constructor
    returns a model with [3 * F] triangle indices and F triangles, and
    every triangle index is below the length of the unique coordinate
    list. *)
Theorem index_buffer_counts_and_range lines :
  valid_source toUInt lines = true ->
  int_sized toUInt lines ->
  exists m,
    Model_ctor toFloat toUInt (Some lines) = Done m /\
    length (getTriangleIndices m) = (3 * face_count lines)%nat /\
    getNumTriangles m = Z.of_nat (face_count lines) /\
    Forall (fun k => 0 <= k < Z.of_nat (length (getCoords m))) (getTriangleIndices m).
Proof.
  intros Hv Hsize.
  destruct (Model_ctor_loadable toFloat toUInt lines (loadable_of_valid _ _ Hv))
    as (fl & Hfl & Hctor).
  eexists. split; [exact Hctor|].
  unfold getCoords, getNumTriangles, getTriangleIndices. simpl.
  assert (length fl = (3 * face_count lines)%nat) as Hlen.
  { rewrite (resolve_length _ _ _ Hfl), length_map. apply valid_source_refs_count, Hv. }
  unfold int_sized in Hsize. rewrite (valid_source_refs_count _ Hv) in Hsize.
  split; [|split].
  - rewrite length_map, slots_length. exact Hlen.
  - rewrite Hlen.
    replace (Z.of_nat (3 * face_count lines) / 3) with (Z.of_nat (face_count lines))
      by (rewrite Nat2Z.inj_mul, Z.mul_comm, Z.div_mul; lia).
    apply to_int_small. lia.
  - apply Forall_forall. intros k Hin.
    apply list_elem_of_fmap in Hin as (n & -> & Hin).
    apply list_elem_of_lookup in Hin as [p Hp].
    destruct (slots_below _ _ _ Hp) as [Hn _].
    pose proof (to_unsigned_range (Z.of_nat n)).
    pose proof (to_unsigned_le (Z.of_nat n)). lia.
Qed.

(** C3, as amended. On a valid mesh source the flat array returned by
    [getMeshCoords] is as long as the triangle index list, and its
    entry at each place compares equal with [==] to the entry of the
    unique list at the index stored for that place when the position
    has no NaN component; a position with a NaN component, which
    compares equal to nothing, is the identical value in both. *)
Theorem getMeshCoords_expands_indices lines :
  valid_source toUInt lines = true ->
  int_sized toUInt lines ->
  exists m,
    Model_ctor toFloat toUInt (Some lines) = Done m /\
    length (getMeshCoords m) = length (getTriangleIndices m) /\
    forall i k,
      getTriangleIndices m !! i = Some k ->
      exists c u,
        getMeshCoords m !! i = Some c /\
        Qt.at_ (getCoords m) k = Done u /\
        (QVector3D_eqb c c = true -> QVector3D_eqb c u = true) /\
        (QVector3D_eqb c c = false -> c = u).
Proof.
  intros Hv Hsize.
  destruct (Model_ctor_loadable toFloat toUInt lines (loadable_of_valid _ _ Hv))
    as (fl & Hfl & Hctor).
  eexists. split; [exact Hctor|].
  unfold getCoords, getMeshCoords, getTriangleIndices. simpl.
  assert (Z.of_nat (length fl) <= Int.INT_MAX) as Hlen.
  { rewrite (resolve_length _ _ _ Hfl), length_map. exact Hsize. }
  split; [rewrite length_map, slots_length; reflexivity|].
  intros i k Hk. rewrite list_lookup_fmap in Hk.
  destruct (slots QVector3D_eqb fl [] !! i) as [n|] eqn:Hn; [|discriminate].
  injection Hk as <-.
  destruct (lookup_lt_is_Some_2 fl i) as [c Hc].
  { rewrite <- (slots_length QVector3D_eqb fl []). eapply lookup_lt_Some; eauto. }
  destruct (slot_entry fl i c n Hlen Hc Hn) as (u & Hu & Hnum & Hnan).
  exists c, u. repeat split; assumption.
Qed.

(** C4, at the failing inputs. When every line of the source is read
    and a face line holds a reference whose stored index is outside the
    whole position list, nothing checks the reference: [unpackIndexes]
    reads outside the position vector, the outcome [Fault], and the run
    reports no malformed input. *)
Theorem out_of_range_reference_faults lines ref :
  readable_source toUInt lines = true ->
  ref ∈ face_refs toUInt lines ->
  Z.of_nat (vertex_count lines) <= stored_index ref ->
  Model_ctor toFloat toUInt (Some lines) = Fault /\
  ~ rejected (Model_ctor toFloat toUInt (Some lines)).
Proof.
  intros Hr Hin Hout.
  assert (Model_ctor toFloat toUInt (Some lines) = Fault) as ->;
    [|split; [reflexivity | discriminate]].
  unfold readable_source in Hr.
  unfold Model_ctor. rewrite (readLines_valid _ _ _ _ _ _ Hr). simpl.
  unfold unpackIndexes. simpl. rewrite unpack_loop_resolve.
  rewrite (resolve_out_of_range _ _ (stored_index ref)); [reflexivity| |].
  - apply list_elem_of_fmap. eauto.
  - rewrite (valid_positions_length _ _ _ _ _ Hr). exact Hout.
Qed.

(** C7, as the loader behaves. A source whose faces have any number of
    references, all in range, is loaded: the constructor returns a
    model, and the flat array and the index list have one entry for each
    reference of each face line. *)
Theorem faces_of_any_arity_are_loaded lines :
  loadable_source toUInt lines = true ->
  exists m,
    Model_ctor toFloat toUInt (Some lines) = Done m /\
    length (getMeshCoords m) = length (face_refs toUInt lines) /\
    length (getTriangleIndices m) = length (face_refs toUInt lines).
Proof.
  intros Hl.
  destruct (Model_ctor_loadable toFloat toUInt lines Hl) as (fl & Hfl & Hctor).
  eexists. split; [exact Hctor|].
  unfold getMeshCoords, getTriangleIndices. simpl.
  rewrite length_map, slots_length, (resolve_length _ _ _ Hfl), length_map. auto.
Qed.

(** A comment line leaves the model as it is. *)
Lemma comment_line_skipped line m :
  Qt.startsWith line "#" = true -> processLine toFloat toUInt line m = Done m.
Proof. intros Hc. unfold processLine. rewrite Hc. reflexivity. Qed.

(** C8, at the failing input. An empty line, and a line of spaces, has
    no token: reading [tokens[0]] is an access outside the list, and a
    source with such a line is not loaded. *)
Theorem blank_line_faults m :
  processLine toFloat toUInt "" m = Fault /\
  processLine toFloat toUInt "   " m = Fault /\
  Model_ctor toFloat toUInt (Some Sample.with_blank_line) = Fault.
Proof. repeat split; reflexivity. Qed.

(** C10. A line that is no comment and whose first token is neither
    [v] nor [f] leaves the model as it is. *)
Theorem other_tags_are_ignored line t ts m :
  Qt.startsWith line "#" = false ->
  Qt.split_skip SPACE line = t :: ts ->
  t <> "v"%string -> t <> "f"%string ->
  processLine toFloat toUInt line m = Done m.
Proof.
  intros Hc Ht Hv Hf. unfold processLine. rewrite Hc, Ht. simpl.
  apply String.eqb_neq in Hv, Hf. rewrite Hv, Hf. reflexivity.
Qed.

End MeshClaims.

(** ** The loader on the sample sources *)

Example load_two_triangles :
  Sample.load (Some Sample.two_triangles) =
  Done (mkModel
          [mkQVector3D f0 f0 f0; mkQVector3D f1 f0 f0;
           mkQVector3D f1 f1 f0; mkQVector3D f0 f1 f0]
          [0; 1; 2; 0; 2; 3]
          [mkQVector3D f0 f0 f0; mkQVector3D f1 f0 f0; mkQVector3D f1 f1 f0;
           mkQVector3D f0 f0 f0; mkQVector3D f1 f1 f0; mkQVector3D f0 f1 f0]).
Proof. vm_compute. reflexivity. Qed.

(** The two zeros are merged, and the flat array keeps the corner as it
    was read: the entry of the unique list compares equal to it and is
    not identical to it. *)
Example load_signed_zero :
  Sample.load (Some ["v 0 0 0"; "v -0 0 0"; "v 1 0 0"; "f 1 2 3"]%string) =
  Done (mkModel
          [mkQVector3D f0 f0 f0; mkQVector3D f1 f0 f0]
          [0; 0; 1]
          [mkQVector3D f0 f0 f0; mkQVector3D (S754_zero true) f0 f0; mkQVector3D f1 f0 f0]).
Proof. vm_compute. reflexivity. Qed.

(** A position with a NaN component compares equal to nothing, itself
    included: each corner that refers to it gets an entry of its own. *)
Example load_nan :
  Sample.load (Some ["v nan 0 0"; "v 1 0 0"; "f 1 1 2"]%string) =
  Done (mkModel
          [mkQVector3D S754_nan f0 f0; mkQVector3D S754_nan f0 f0; mkQVector3D f1 f0 f0]
          [0; 1; 2]
          [mkQVector3D S754_nan f0 f0; mkQVector3D S754_nan f0 f0; mkQVector3D f1 f0 f0]).
Proof. vm_compute. reflexivity. Qed.

(** Positions that differ by 1e-7 in one component are kept apart. *)
Example nearby_positions_are_distinct :
  QVector3D_eqb (mkQVector3D f0 f0 f0)
                (mkQVector3D f0 f0 (S754_finite false 14073749 (-47))) = false /\
  valid_binary prec32 emax32 (S754_finite false 14073749 (-47)) = true.
Proof. split; reflexivity. Qed.

Lemma getCoords_exact_first_seen_witness :
  exists m,
    Sample.load (Some Sample.two_triangles) = Done m /\
    length (getMeshCoords m) = length (face_refs Sample.toUInt Sample.two_triangles) /\
    (forall i ref,
       face_refs Sample.toUInt Sample.two_triangles !! i = Some ref ->
       (ref <= Int.UINT_MOD -> stored_index ref = ref - 1) /\
       exists c,
         getMeshCoords m !! i = Some c /\
         positions Sample.toFloat Sample.two_triangles !! Z.to_nat (stored_index ref) =
           Some c) /\
    pairwise_distinct QVector3D_eqb (getCoords m) /\
    getCoords m = first_occurrences QVector3D_eqb [] (getMeshCoords m) /\
    (forall p cp,
       getMeshCoords m !! p = Some cp ->
       exists kp u,
         getTriangleIndices m !! p = Some kp /\
         Qt.at_ (getCoords m) kp = Done u /\
         (QVector3D_eqb cp cp = true -> QVector3D_eqb cp u = true) /\
         (QVector3D_eqb cp cp = false -> cp = u)) /\
    forall p q cp cq,
      p <> q ->
      getMeshCoords m !! p = Some cp -> getMeshCoords m !! q = Some cq ->
      exists kp kq,
        getTriangleIndices m !! p = Some kp /\
        getTriangleIndices m !! q = Some kq /\
        (kp = kq <-> QVector3D_eqb cp cq = true).
Proof.
  apply (getCoords_exact_first_seen Sample.toFloat Sample.toUInt Sample.two_triangles).
  - vm_compute. reflexivity.
  - vm_compute. discriminate.
Defined.

Lemma index_buffer_counts_and_range_witness :
  exists m,
    Sample.load (Some Sample.two_triangles) = Done m /\
    length (getTriangleIndices m) = (3 * face_count Sample.two_triangles)%nat /\
    getNumTriangles m = Z.of_nat (face_count Sample.two_triangles) /\
    Forall (fun k => 0 <= k < Z.of_nat (length (getCoords m))) (getTriangleIndices m).
Proof.
  apply (index_buffer_counts_and_range Sample.toFloat Sample.toUInt Sample.two_triangles).
  - vm_compute. reflexivity.
  - vm_compute. discriminate.
Defined.

Lemma getMeshCoords_expands_indices_witness :
  exists m,
    Sample.load (Some Sample.with_nan) = Done m /\
    length (getMeshCoords m) = length (getTriangleIndices m) /\
    forall i k,
      getTriangleIndices m !! i = Some k ->
      exists c u,
        getMeshCoords m !! i = Some c /\
        Qt.at_ (getCoords m) k = Done u /\
        (QVector3D_eqb c c = true -> QVector3D_eqb c u = true) /\
        (QVector3D_eqb c c = false -> c = u).
Proof.
  apply (getMeshCoords_expands_indices Sample.toFloat Sample.toUInt Sample.with_nan).
  - vm_compute. reflexivity.
  - vm_compute. discriminate.
Defined.

(** On the valid triangle with a NaN coordinate the first flat entry
    does not compare equal to the entry of the unique list at its
    index: the two are the same value, and [==] holds for no NaN. *)
Lemma nan_corner_not_equal_to_its_entry :
  valid_source Sample.toUInt Sample.with_nan = true /\
  exists m c u,
    Sample.load (Some Sample.with_nan) = Done m /\
    getTriangleIndices m !! 0%nat = Some 0 /\
    getMeshCoords m !! 0%nat = Some c /\
    Qt.at_ (getCoords m) 0 = Done u /\
    QVector3D_eqb c u = false.
Proof.
  split; [vm_compute; reflexivity|].
  eexists _, _, _. split; [vm_compute; reflexivity|].
  repeat split.
Qed.

(** The source with a reference to position 99 of four is not rejected:
    the run ends in the fault. *)
Lemma dangling_reference_not_rejected :
  Sample.load (Some Sample.dangling) = Fault /\
  ~ rejected (Sample.load (Some Sample.dangling)).
Proof. split; [vm_compute; reflexivity | vm_compute; discriminate]. Qed.

Lemma out_of_range_reference_faults_witness :
  Sample.load (Some Sample.dangling) = Fault /\
  ~ rejected (Sample.load (Some Sample.dangling)).
Proof.
  apply (out_of_range_reference_faults Sample.toFloat Sample.toUInt Sample.dangling 99).
  - vm_compute. reflexivity.
  - apply list_elem_of_In. vm_compute. tauto.
  - vm_compute. discriminate.
Defined.

(** The source with a face of four references is not rejected: a model
    is returned, with four indices and one triangle. *)
Lemma quad_not_rejected :
  ~ rejected (Sample.load (Some Sample.quad)) /\
  exists m,
    Sample.load (Some Sample.quad) = Done m /\
    getTriangleIndices m = [0; 1; 2; 3] /\ getNumTriangles m = 1.
Proof.
  split; [vm_compute; discriminate|].
  eexists. split; [vm_compute; reflexivity|]. split; reflexivity.
Qed.

Lemma faces_of_any_arity_are_loaded_witness :
  exists m,
    Sample.load (Some Sample.quad) = Done m /\
    length (getMeshCoords m) = length (face_refs Sample.toUInt Sample.quad) /\
    length (getTriangleIndices m) = length (face_refs Sample.toUInt Sample.quad).
Proof.
  apply (faces_of_any_arity_are_loaded Sample.toFloat Sample.toUInt Sample.quad).
  vm_compute. reflexivity.
Defined.

Lemma other_tags_are_ignored_witness :
  processLine Sample.toFloat Sample.toUInt "vn 0 0 1" emptyModel = Done emptyModel.
Proof.
  apply (other_tags_are_ignored Sample.toFloat Sample.toUInt "vn 0 0 1" "vn" ["0"; "0"; "1"]%string).
  - reflexivity.
  - reflexivity.
  - discriminate.
  - discriminate.
Defined.

(** * The transform state and the frame *)

Section ViewClaims.

Context {M : Type} `{QMatrix4x4Ops M}.

(** [rotateAndScale] rebuilds both matrices from the stored angles and
    scale factor, whatever the matrices were. *)
Lemma rotateAndScale_composed (v : MainView M) :
  model (rotateAndScale v) =
    composed (float_of_Z (-2)) f0 (float_of_Z (-6)) (rotX v) (rotY v) (rotZ v) (scaling v) /\
  knotModel (rotateAndScale v) =
    composed (float_of_Z 2) f0 (float_of_Z (-6)) (rotX v) (rotY v) (rotZ v) (scaling v).
Proof. split; reflexivity. Qed.

(** C5. After [setRotation] or [setScale] the matrix of each instance
    is the composition, from the identity, of the translation by the
    instance's offset, the rotations about X, Y and Z by the stored
    angles, and the scale by the stored factor, in this order; the call
    replaces the angles or the factor that it is given and keeps the
    others. *)
Theorem model_matrix_composition (v : MainView M) (ax ay az : Z) (s : float) :
  (model (setRotation v ax ay az) =
     composed (float_of_Z (-2)) f0 (float_of_Z (-6)) ax ay az (scaling v) /\
   knotModel (setRotation v ax ay az) =
     composed (float_of_Z 2) f0 (float_of_Z (-6)) ax ay az (scaling v)) /\
  (model (setScale v s) =
     composed (float_of_Z (-2)) f0 (float_of_Z (-6)) (rotX v) (rotY v) (rotZ v) s /\
   knotModel (setScale v s) =
     composed (float_of_Z 2) f0 (float_of_Z (-6)) (rotX v) (rotY v) (rotZ v) s) /\
  (model (setScale (setRotation v ax ay az) s) =
     composed (float_of_Z (-2)) f0 (float_of_Z (-6)) ax ay az s /\
   knotModel (setScale (setRotation v ax ay az) s) =
     composed (float_of_Z 2) f0 (float_of_Z (-6)) ax ay az s) /\
  (model (setRotation (setScale v s) ax ay az) =
     composed (float_of_Z (-2)) f0 (float_of_Z (-6)) ax ay az s /\
   knotModel (setRotation (setScale v s) ax ay az) =
     composed (float_of_Z 2) f0 (float_of_Z (-6)) ax ay az s).
Proof.
  unfold setRotation, setScale.
  repeat split; apply rotateAndScale_composed.
Qed.

(** The matrices that [rotateAndScale] leaves depend on the stored
    angles and factor only. *)
Lemma rotateAndScale_from_base_values (v w : MainView M) :
  rotX v = rotX w -> rotY v = rotY w -> rotZ v = rotZ w -> scaling v = scaling w ->
  model (rotateAndScale v) = model (rotateAndScale w) /\
  knotModel (rotateAndScale v) = knotModel (rotateAndScale w).
Proof.
  intros HX HY HZ HS.
  destruct (rotateAndScale_composed v) as [-> ->].
  destruct (rotateAndScale_composed w) as [-> ->].
  rewrite HX, HY, HZ, HS. split; reflexivity.
Qed.

Lemma setScale_base_values (v : MainView M) (s : float) :
  scaling (setScale v s) = s /\
  rotX (setScale v s) = rotX v /\ rotY (setScale v s) = rotY v /\
  rotZ (setScale v s) = rotZ v.
Proof. repeat split. Qed.

Lemma setRotation_base_values (v : MainView M) (ax ay az : Z) :
  scaling (setRotation v ax ay az) = scaling v /\
  rotX (setRotation v ax ay az) = ax /\ rotY (setRotation v ax ay az) = ay /\
  rotZ (setRotation v ax ay az) = az.
Proof. repeat split. Qed.

(** C6. Updates do not accumulate: a second [setScale] leaves the
    matrices, angles and factor that it alone would leave, and a
    repeated [setRotation] leaves those of the first. *)
Theorem transform_updates_do_not_accumulate (v : MainView M) (s1 s2 : float) (ax ay az : Z) :
  (model (setScale (setScale v s1) s2) = model (setScale v s2) /\
   knotModel (setScale (setScale v s1) s2) = knotModel (setScale v s2) /\
   scaling (setScale (setScale v s1) s2) = scaling (setScale v s2) /\
   (rotX (setScale (setScale v s1) s2), rotY (setScale (setScale v s1) s2),
    rotZ (setScale (setScale v s1) s2)) = (rotX v, rotY v, rotZ v)) /\
  (model (setRotation (setRotation v ax ay az) ax ay az) = model (setRotation v ax ay az) /\
   knotModel (setRotation (setRotation v ax ay az) ax ay az) =
     knotModel (setRotation v ax ay az) /\
   scaling (setRotation (setRotation v ax ay az) ax ay az) = scaling v /\
   (rotX (setRotation (setRotation v ax ay az) ax ay az),
    rotY (setRotation (setRotation v ax ay az) ax ay az),
    rotZ (setRotation (setRotation v ax ay az) ax ay az)) = (ax, ay, az)).
Proof.
  split.
  - destruct (setScale_base_values (setScale v s1) s2) as (HS & HX & HY & HZ).
    destruct (setScale_base_values v s1) as (_ & HX1 & HY1 & HZ1).
    destruct (setScale_base_values v s2) as (HS2 & HX2 & HY2 & HZ2).
    assert (model (setScale (setScale v s1) s2) = model (setScale v s2) /\
            knotModel (setScale (setScale v s1) s2) = knotModel (setScale v s2))
      as [Hm Hk].
    { unfold setScale at 1 3 4 6. apply rotateAndScale_from_base_values; reflexivity. }
    repeat split; try assumption; congruence.
  - destruct (setRotation_base_values (setRotation v ax ay az) ax ay az)
      as (HS & HX & HY & HZ).
    destruct (setRotation_base_values v ax ay az) as (HS1 & _).
    assert (model (setRotation (setRotation v ax ay az) ax ay az) =
              model (setRotation v ax ay az) /\
            knotModel (setRotation (setRotation v ax ay az) ax ay az) =
              knotModel (setRotation v ax ay az)) as [Hm Hk].
    { unfold setRotation at 1 3 4 6. apply rotateAndScale_from_base_values; reflexivity. }
    repeat split; try assumption; congruence.
Qed.

Lemma paintGL_drawCounts (v : MainView M) : drawCounts (paintGL v) = [18; 3840].
Proof. reflexivity. Qed.


End ViewClaims.

(** On matrices kept as their sequence of calls, the composition reads
    in the order of the calls, and a changed order is another matrix. *)
Example composed_call_order (tx ty tz s : float) (ax ay az : Z) :
  composed (M := list MatrixCall) tx ty tz ax ay az s =
  [Translate tx ty tz;
   Rotate (float_of_Z ax) f1 f0 f0;
   Rotate (float_of_Z ay) f0 f1 f0;
   Rotate (float_of_Z az) f0 f0 f1;
   Scale s].
Proof. reflexivity. Qed.

Example setScale_twice :
  model (setScale (setScale Sample.view (float_ratio 1 2)) (float_of_Z 2)) =
  [Translate (float_of_Z (-2)) f0 (float_of_Z (-6));
   Rotate f0 f1 f0 f0; Rotate f0 f0 f1 f0; Rotate f0 f0 f0 f1;
   Scale (float_of_Z 2)].
Proof. reflexivity. Qed.



(** * More on the loader *)

Section LoaderOutcome.

Variable toFloat : string -> float.
Variable toUInt : string -> Z.

Lemma processLine_unreadable line m :
  valid_line toUInt any_arity any_reference line = false ->
  processLine toFloat toUInt line m = Fault.
Proof.
  unfold valid_line, processLine.
  fold (is_comment line). fold (tokens_of line).
  destruct (is_comment line); [discriminate|].
  destruct (tokens_of line) as [|t args]; [reflexivity|]. simpl.
  destruct (String.eqb t "v").
  - destruct args as [|t1 [|t2 [|t3 args]]]; simpl; try discriminate; reflexivity.
  - destruct (String.eqb t "f"); [|discriminate].
    unfold any_arity, any_reference. simpl.
    intros Hf. exfalso. revert Hf. clear. induction args; simpl; auto; discriminate.
Qed.

Lemma readLines_unreadable lines m :
  readable_source toUInt lines = false ->
  readLines toFloat toUInt lines m = Fault.
Proof.
  unfold readable_source. revert m.
  induction lines as [|line lines IH]; intros m; simpl; [discriminate|].
  destruct (valid_line toUInt any_arity any_reference line) eqn:Hline; simpl.
  - intros Hrest. rewrite (processLine_valid _ _ _ _ _ _ Hline). simpl. apply IH, Hrest.
  - intros _. rewrite (processLine_unreadable _ _ Hline). reflexivity.
Qed.

Lemma indices_in_range_Forall lines :
  indices_in_range toUInt lines = true ->
  Forall (fun i => 0 <= i < Z.of_nat (vertex_count lines))
         (map stored_index (face_refs toUInt lines)).
Proof.
  unfold indices_in_range. rewrite forallb_forall. intros Hall.
  apply Forall_forall. intros i Hin.
  apply list_elem_of_fmap in Hin as (ref & -> & Hin).
  apply list_elem_of_In, Hall, Z.ltb_lt in Hin.
  pose proof (to_unsigned_range (ref - 1)). unfold stored_index in *. lia.
Qed.

Lemma indices_out_of_range lines :
  indices_in_range toUInt lines = false ->
  exists ref, ref ∈ face_refs toUInt lines /\
              Z.of_nat (vertex_count lines) <= stored_index ref.
Proof.
  unfold indices_in_range. intros Hn.
  induction (face_refs toUInt lines) as [|ref refs IH]; simpl in Hn; [discriminate|].
  apply andb_false_iff in Hn as [Hn|Hn].
  - exists ref. split; [left|]. apply Z.ltb_ge. exact Hn.
  - destruct (IH Hn) as (ref' & Hin & Hout). exists ref'. split; [right|]; assumption.
Qed.

(** The result on a source whose lines are all read: the corners are
    resolved against the whole position list. *)
Lemma Model_ctor_readable lines :
  readable_source toUInt lines = true ->
  Model_ctor toFloat toUInt (Some lines) =
  match resolve (positions toFloat lines) (map stored_index (face_refs toUInt lines)) with
  | Some fl =>
      Done (mkModel (uniq QVector3D_eqb fl [])
                    (map (fun k => Int.to_unsigned (Z.of_nat k)) (slots QVector3D_eqb fl []))
                    fl)
  | None => Fault
  end.
Proof.
  intros Hr. unfold readable_source in Hr.
  unfold Model_ctor. rewrite (readLines_valid _ _ _ _ _ _ Hr). simpl.
  unfold unpackIndexes. simpl. rewrite unpack_loop_resolve.
  destruct (resolve _ _) as [fl|] eqn:Hfl; simpl; [|reflexivity].
  unfold alignData. simpl.
  rewrite (align_loop_resolve _ _ [] []), Hfl. reflexivity.
Qed.

(** X1. The constructor reports no error: on every file, readable or
    not, its run returns a model or ends in an access outside a vector,
    and raises nothing. *)
Theorem Model_ctor_reports_no_error file :
  (exists m, Model_ctor toFloat toUInt file = Done m) \/
  Model_ctor toFloat toUInt file = Fault.
Proof.
  destruct file as [lines|]; [|left; eexists; reflexivity].
  destruct (readable_source toUInt lines) eqn:Hr.
  - rewrite (Model_ctor_readable _ Hr).
    destruct (resolve _ _); [left; eexists; reflexivity | right; reflexivity].
  - right. unfold Model_ctor. rewrite (readLines_unreadable _ _ Hr). reflexivity.
Qed.

(** X2. The constructor returns a model exactly when every line of the
    source is a comment, a position with three coordinates, a face or a
    line with another tag, and every index stored for a face reference
    is below the number of positions of the whole source; on every
    other source it ends in an access outside a vector. *)
Theorem Model_ctor_outcome lines :
  match Model_ctor toFloat toUInt (Some lines) with
  | Done m =>
      readable_source toUInt lines && indices_in_range toUInt lines = true /\
      length (getMeshCoords m) = length (face_refs toUInt lines)
  | Raised _ => False
  | Fault => readable_source toUInt lines && indices_in_range toUInt lines = false
  end.
Proof.
  destruct (readable_source toUInt lines) eqn:Hr.
  - rewrite (Model_ctor_readable _ Hr). simpl.
    destruct (indices_in_range toUInt lines) eqn:Hi.
    + destruct (resolve_in_range (positions toFloat lines)
                  (map stored_index (face_refs toUInt lines))) as [fl Hfl].
      { rewrite (valid_positions_length _ _ _ _ _ Hr). apply indices_in_range_Forall, Hi. }
      rewrite Hfl. split; [reflexivity|].
      unfold getMeshCoords. simpl. rewrite (resolve_length _ _ _ Hfl), length_map. reflexivity.
    + destruct (indices_out_of_range _ Hi) as (ref & Hin & Hout).
      rewrite (resolve_out_of_range _ _ (stored_index ref)); [reflexivity| |].
      * apply list_elem_of_fmap. eauto.
      * rewrite (valid_positions_length _ _ _ _ _ Hr). exact Hout.
  - unfold Model_ctor. rewrite (readLines_unreadable _ _ Hr). reflexivity.
Qed.

End LoaderOutcome.

(** ** More on deduplication *)

Section DedupMore.

Context {A : Type} (eqb : A -> A -> bool).
Hypothesis eqb_sym : forall a b, eqb a b = eqb b a.
Hypothesis eqb_trans : forall a b c, eqb a b = true -> eqb b c = true -> eqb a c = true.

(** An entry added to the unique list is the corner that introduced it. *)
Lemma uniq_used fl verts k u :
  uniq eqb fl verts !! k = Some u -> (length verts <= k)%nat ->
  exists i, slots eqb fl verts !! i = Some k /\ fl !! i = Some u /\
            forall j k', (j < i)%nat -> slots eqb fl verts !! j = Some k' -> k' <> k.
Proof.
  revert verts. induction fl as [|c fl IH]; intros verts; simpl.
  - intros Hk Hle. apply lookup_lt_Some in Hk. lia.
  - destruct (slot_of eqb verts c) as [k0|] eqn:S.
    + intros Hk Hle. destruct (IH _ Hk Hle) as (i & Hi & Hu & Hfirst).
      exists (Datatypes.S i). repeat split; auto.
      intros [|j] k' Hj; simpl.
      * intros [= <-]. destruct (slot_of_Some _ _ _ _ S) as (w & Hw & _).
        apply lookup_lt_Some in Hw. lia.
      * apply Hfirst. lia.
    + intros Hk Hle. destruct (decide (k = length verts)) as [->|Hne].
      * exists 0%nat. simpl.
        rewrite (uniq_lookup_old eqb fl (verts ++ [c]) (length verts) c) in Hk
          by (apply list_lookup_middle; reflexivity).
        repeat split; [congruence|]. intros j k' Hj. lia.
      * destruct (IH (verts ++ [c]) Hk) as (i & Hi & Hu & Hfirst).
        { rewrite length_app. simpl. lia. }
        exists (Datatypes.S i). repeat split; auto.
        intros [|j] k' Hj; simpl; [intros [= <-]; auto|].
        apply Hfirst. lia.
Qed.

(** Entries that compare equal to themselves are pairwise different. *)
Lemma pairwise_distinct_NoDup l :
  pairwise_distinct eqb l -> Forall (fun a => eqb a a = true) l -> NoDup l.
Proof.
  intros PD Hrefl. apply NoDup_alt. intros i j a Hi Hj.
  destruct (decide (i = j)) as [|Hne]; [assumption|].
  pose proof (PD i j a a Hne Hi Hj) as Hf.
  rewrite Forall_forall in Hrefl.
  rewrite (Hrefl a) in Hf; [discriminate|].
  eapply list_elem_of_lookup_2; eauto.
Qed.

Lemma uniq_elem_of fl verts u :
  u ∈ uniq eqb fl verts -> u ∈ verts \/ u ∈ fl.
Proof.
  intros Hin. apply list_elem_of_lookup in Hin as [k Hk].
  destruct (decide (k < length verts)%nat) as [Hlt|Hge].
  - left. destruct (lookup_lt_is_Some_2 verts k Hlt) as [w Hw].
    rewrite (uniq_lookup_old eqb fl verts k w Hw) in Hk.
    injection Hk as <-. eapply list_elem_of_lookup_2; eauto.
  - right. destruct (uniq_used fl verts k u Hk) as (i & _ & Hi & _); [lia|].
    eapply list_elem_of_lookup_2; eauto.
Qed.

(** Walking the entries at the places of the corners gives the same
    unique list and the same places. *)
Lemma realign fl verts fl' :
  pairwise_distinct eqb verts ->
  Forall2 (fun k c' => uniq eqb fl verts !! k = Some c') (slots eqb fl verts) fl' ->
  uniq eqb fl' verts = uniq eqb fl verts /\ slots eqb fl' verts = slots eqb fl verts.
Proof.
  revert verts fl'. induction fl as [|c fl IH]; intros verts fl' PD; simpl.
  - intros HF. inversion HF. split; reflexivity.
  - destruct (slot_of eqb verts c) as [k|] eqn:S.
    + intros HF. inversion HF as [|k0 c' ks fl'' Hk Hrest]; subst. simpl.
      destruct (slot_of_Some _ _ _ _ S) as (u & Hu & He & _).
      rewrite (uniq_lookup_old eqb fl verts k u Hu) in Hk. injection Hk as <-.
      assert (eqb u u = true) as Huu.
      { eapply eqb_trans; [exact He|]. rewrite eqb_sym. exact He. }
      rewrite (slot_of_unique eqb eqb_sym eqb_trans verts u k u PD Hu Huu).
      destruct (IH verts fl'' PD Hrest) as [-> ->]. split; reflexivity.
    + intros HF. inversion HF as [|k0 c' ks fl'' Hk Hrest]; subst. simpl.
      rewrite (uniq_lookup_old eqb fl (verts ++ [c]) (length verts) c) in Hk
        by (apply list_lookup_middle; reflexivity).
      injection Hk as <-. rewrite S.
      destruct (IH (verts ++ [c]) fl'') as [-> ->]; auto using pairwise_distinct_snoc.
Qed.

End DedupMore.

Section LoaderMore.

Variable toFloat : string -> float.
Variable toUInt : string -> Z.

(** What a returned model is made of. *)
Lemma Model_ctor_Done_inv lines m :
  Model_ctor toFloat toUInt (Some lines) = Done m ->
  readable_source toUInt lines = true /\
  exists fl,
    resolve (positions toFloat lines) (map stored_index (face_refs toUInt lines)) = Some fl /\
    m = mkModel (uniq QVector3D_eqb fl [])
                (map (fun k => Int.to_unsigned (Z.of_nat k)) (slots QVector3D_eqb fl []))
                fl.
Proof.
  intros Hd. destruct (readable_source toUInt lines) eqn:Hr.
  - split; [reflexivity|]. rewrite (Model_ctor_readable _ _ _ Hr) in Hd.
    destruct (resolve _ _) as [fl|]; [|discriminate].
    exists fl. split; [reflexivity | congruence].
  - unfold Model_ctor in Hd. rewrite (readLines_unreadable _ _ _ _ Hr) in Hd. discriminate.
Qed.

Lemma stored_index_pred ref : 1 <= ref <= Int.UINT_MOD -> stored_index ref = ref - 1.
Proof. intros Hr. unfold stored_index. apply to_unsigned_small. lia. Qed.

(** X3. In a returned model the flat array lists the corners of the
    faces in the order of the file: its entry for a reference [ref]
    (counted from 1) is the position of the [ref]-th position line. *)
Theorem getMeshCoords_follows_references lines m i ref :
  Model_ctor toFloat toUInt (Some lines) = Done m ->
  face_refs toUInt lines !! i = Some ref ->
  1 <= ref <= Int.UINT_MOD ->
  exists c,
    getMeshCoords m !! i = Some c /\
    positions toFloat lines !! Z.to_nat (ref - 1) = Some c /\
    length (positions toFloat lines) = vertex_count lines.
Proof.
  intros Hd Href Hrange.
  destruct (Model_ctor_Done_inv _ _ Hd) as (Hr & fl & Hfl & ->).
  destruct (resolve_lookup _ _ _ i (stored_index ref) Hfl) as (c & Hc & _ & Hpos).
  { rewrite list_lookup_fmap, Href. reflexivity. }
  exists c. rewrite <- (stored_index_pred _ Hrange). repeat split; auto.
  apply (valid_positions_length toFloat _ _ _ _ Hr).
Qed.

(** X4. Every entry of the unique list of a returned model is used: some
    corner has its index, and the first corner with this index holds
    this very position. The list has no entry for a position line that
    no face refers to. *)
Theorem getCoords_entries_are_used lines m k u :
  Model_ctor toFloat toUInt (Some lines) = Done m ->
  int_sized toUInt lines ->
  getCoords m !! k = Some u ->
  exists i,
    getTriangleIndices m !! i = Some (Z.of_nat k) /\
    getMeshCoords m !! i = Some u /\
    forall j, (j < i)%nat -> getTriangleIndices m !! j <> Some (Z.of_nat k).
Proof.
  intros Hd Hsize Hk.
  destruct (Model_ctor_Done_inv _ _ Hd) as (Hr & fl & Hfl & ->).
  unfold getCoords, getMeshCoords, getTriangleIndices in *. simpl in *.
  assert (Z.of_nat (length fl) <= Int.INT_MAX) as Hlen.
  { rewrite (resolve_length _ _ _ Hfl), length_map. exact Hsize. }
  unfold Int.INT_MAX in Hlen.
  destruct (uniq_used QVector3D_eqb fl [] k u Hk) as (i & Hi & Hu & Hfirst);
    [simpl; lia|].
  destruct (slots_below _ _ _ Hi) as [_ Hkl].
  exists i. rewrite list_lookup_fmap, Hi. simpl.
  rewrite to_unsigned_small by (unfold Int.UINT_MOD; lia).
  repeat split; auto.
  intros j Hj. rewrite list_lookup_fmap.
  destruct (slots QVector3D_eqb fl [] !! j) as [k'|] eqn:Hk'; simpl; [|discriminate].
  destruct (slots_below _ _ _ Hk') as [_ Hk'l].
  rewrite to_unsigned_small by (unfold Int.UINT_MOD; lia).
  intros [= Heq]. apply (Hfirst j k' Hj Hk'). lia.
Qed.

(** X5. The unique list of a returned model is never longer than the
    flat array; when every coordinate that was read is a number, it is
    not longer than the list of position lines either. *)
Theorem getCoords_length_bounds lines m :
  Model_ctor toFloat toUInt (Some lines) = Done m ->
  (length (getCoords m) <= length (getMeshCoords m))%nat /\
  (Forall (fun v => QVector3D_eqb v v = true) (positions toFloat lines) ->
   (length (getCoords m) <= vertex_count lines)%nat).
Proof.
  intros Hd.
  destruct (Model_ctor_Done_inv _ _ Hd) as (Hr & fl & Hfl & ->).
  unfold getCoords, getMeshCoords. simpl. split.
  - pose proof (uniq_length QVector3D_eqb fl []). simpl in *. lia.
  - intros Hnum. rewrite <- (valid_positions_length toFloat _ _ _ _ Hr).
    apply submseteq_length, NoDup_submseteq.
    + apply (pairwise_distinct_NoDup QVector3D_eqb).
      * apply uniq_distinct; [exact QVector3D_eqb_sym | apply pairwise_distinct_nil].
      * apply Forall_forall. intros u Hu.
        apply uniq_elem_of in Hu as [Hu|Hu]; [inversion Hu|].
        rewrite Forall_forall in Hnum. apply Hnum.
        eapply resolve_elem_of; eauto.
    + intros u Hu. apply uniq_elem_of in Hu as [Hu|Hu]; [inversion Hu|].
      eapply resolve_elem_of; eauto.
Qed.

(** X6. The corners are resolved once all lines are read: two sources
    whose lines are all read, with the same positions and the same face
    references in the same order, give the same result, wherever their
    position lines, face lines, comments and other lines stand. *)
Theorem Model_ctor_ignores_interleaving lines1 lines2 :
  readable_source toUInt lines1 = true ->
  readable_source toUInt lines2 = true ->
  positions toFloat lines1 = positions toFloat lines2 ->
  face_refs toUInt lines1 = face_refs toUInt lines2 ->
  Model_ctor toFloat toUInt (Some lines1) = Model_ctor toFloat toUInt (Some lines2).
Proof.
  intros H1 H2 Hp Hf.
  rewrite (Model_ctor_readable _ _ _ H1), (Model_ctor_readable _ _ _ H2), Hp, Hf.
  reflexivity.
Qed.

Lemma split_app_sep sep (a rest : string) :
  Qt.split sep (a ++ String sep rest)%string = Qt.split sep a ++ Qt.split sep rest.
Proof.
  induction a as [|c a IH]; simpl.
  - rewrite Ascii.eqb_refl. reflexivity.
  - destruct (Ascii.eqb c sep); [rewrite IH; reflexivity|].
    rewrite IH. destruct (split_cons sep a) as (t & ts & ->). reflexivity.
Qed.

(** X7. The fields that follow a [/] in a face token are dropped: the
    index stored for the token is that of the text before the [/]. *)
Theorem faceIndex_ignores_extra_fields (a rest : string) :
  faceIndex toUInt (a ++ String SLASH rest)%string = faceIndex toUInt a.
Proof.
  rewrite !faceIndex_ok. unfold face_ref.
  rewrite split_app_sep.
  destruct (split_cons SLASH a) as (t & ts & ->). reflexivity.
Qed.

(** X8. A face reference that converts to 0, which is what Qt gives for
    the text [0] and for a text that is no number, is stored as the
    index 4294967295: a source whose lines are all read and that holds
    such a reference is not loaded, the run ends in the access outside
    the position vector. *)
Theorem zero_reference_faults lines :
  readable_source toUInt lines = true ->
  0 ∈ face_refs toUInt lines ->
  Z.of_nat (vertex_count lines) < Int.UINT_MOD ->
  stored_index 0 = 4294967295 /\
  Model_ctor toFloat toUInt (Some lines) = Fault.
Proof.
  intros Hr Hin Hn. split; [reflexivity|].
  rewrite (Model_ctor_readable _ _ _ Hr).
  rewrite (resolve_out_of_range _ _ (stored_index 0)); [reflexivity| |].
  - apply list_elem_of_fmap. eauto.
  - rewrite (valid_positions_length toFloat _ _ _ _ Hr).
    change (stored_index 0) with 4294967295. unfold Int.UINT_MOD in Hn. lia.
Qed.

Lemma face_refs_nil lines : face_count lines = 0%nat -> face_refs toUInt lines = [].
Proof.
  induction lines as [|line lines IH]; [reflexivity|].
  rewrite face_count_cons. unfold face_refs, line_refs in *. simpl.
  destruct (is_tagged "f" line); [discriminate|]. simpl. exact IH.
Qed.

(** X10. A file that cannot be opened and a file without a position or
    face line (an empty file, or comments and lines with other tags)
    give the same model: the empty one, with no triangle. *)
Theorem no_geometry_is_the_empty_model lines :
  readable_source toUInt lines = true ->
  vertex_count lines = 0%nat -> face_count lines = 0%nat ->
  Model_ctor toFloat toUInt (Some lines) = Done emptyModel /\
  Model_ctor toFloat toUInt None = Done emptyModel /\
  getNumTriangles emptyModel = 0.
Proof.
  intros Hr Hv Hf. split; [|split; reflexivity].
  rewrite (Model_ctor_readable _ _ _ Hr), (face_refs_nil _ Hf).
  assert (positions toFloat lines = []) as ->.
  { apply nil_length_inv. rewrite (valid_positions_length toFloat _ _ _ _ Hr). exact Hv. }
  reflexivity.
Qed.

(** X9. [alignData] leaves an aligned model as it is: run again on the
    model that it returned, it returns the same model. *)
Theorem alignData_idempotent m m1 :
  Z.of_nat (length (indices m)) <= Int.INT_MAX ->
  alignData m = Done m1 -> alignData m1 = Done m1.
Proof.
  intros Hsize. unfold alignData.
  rewrite (align_loop_resolve _ _ [] []).
  destruct (resolve (coordsIndexed m) (indices m)) as [fl|] eqn:Hfl; [|discriminate].
  simpl. intros [= <-]. simpl.
  rewrite (align_loop_resolve _ _ [] []).
  set (V := uniq QVector3D_eqb fl []). set (S := slots QVector3D_eqb fl []).
  assert (Z.of_nat (length fl) <= Int.INT_MAX) as Hlen
    by (rewrite (resolve_length _ _ _ Hfl); exact Hsize).
  unfold Int.INT_MAX in Hlen.
  assert (exists fl', Forall2 (fun k c' => V !! k = Some c') S fl') as [fl' HF].
  { assert (Forall (fun k => is_Some (V !! k)) S) as Hall.
    { apply Forall_forall. intros k Hk. apply list_elem_of_lookup in Hk as [p Hp].
      apply lookup_lt_is_Some. apply (slots_below _ _ _ Hp). }
    clear -Hall. induction Hall as [|k S [c Hc] _ [fl' IH]].
    - exists []. constructor.
    - exists (c :: fl'). constructor; assumption. }
  assert (resolve V (map (fun k => Int.to_unsigned (Z.of_nat k)) S) = Some fl') as ->.
  { apply resolve_Forall2. apply Forall2_fmap_l.
    assert (Forall (fun k => (k < length fl)%nat) S) as Hbelow.
    { apply Forall_forall. intros k Hk. apply list_elem_of_lookup in Hk as [p Hp].
      apply (slots_below _ _ _ Hp). }
    clear -HF Hbelow Hlen. induction HF as [|k c S fl' Hk _ IH]; [constructor|].
    inversion Hbelow; subst. constructor; [|apply IH; assumption].
    unfold compose.
    rewrite to_unsigned_small by (unfold Int.UINT_MOD; lia).
    rewrite Nat2Z.id. split; [lia | exact Hk]. }
  destruct (realign QVector3D_eqb QVector3D_eqb_sym QVector3D_eqb_trans fl [] fl'
              (pairwise_distinct_nil _) HF) as [-> ->].
  reflexivity.
Qed.

End LoaderMore.

(** * More on the view *)

Section ViewMore.

Context {M : Type} `{QMatrix4x4Ops M}.

Lemma call_angles (v : MainView M) c :
  (rotX (call v c), rotY (call v c), rotZ (call v c)) =
  angles_after [c] (rotX v, rotY v, rotZ v).
Proof. destruct c; reflexivity. Qed.

Lemma call_factor (v : MainView M) c :
  scaling (call v c) = factor_after [c] (scaling v).
Proof. destruct c; reflexivity. Qed.

Lemma call_transform_consistent (v : MainView M) c :
  is_transform c = true -> consistent (call v c).
Proof.
  destruct c; try discriminate; intros _; split; reflexivity.
Qed.

Lemma call_keeps_consistent (v : MainView M) c :
  consistent v -> consistent (call v c).
Proof.
  intros Hv. destruct (is_transform c) eqn:Ht;
    [apply call_transform_consistent; exact Ht|].
  destruct c; try discriminate; exact Hv.
Qed.

Lemma calls_keep_consistent cs (v : MainView M) :
  consistent v -> consistent (calls v cs).
Proof.
  revert v. induction cs as [|c cs IH]; intros v Hv; [exact Hv|].
  apply IH, call_keeps_consistent, Hv.
Qed.

Lemma calls_transform_consistent cs (v : MainView M) :
  existsb is_transform cs = true -> consistent (calls v cs).
Proof.
  revert v. induction cs as [|c cs IH]; intros v; simpl; [discriminate|].
  destruct (is_transform c) eqn:Ht; simpl.
  - intros _. apply calls_keep_consistent, call_transform_consistent, Ht.
  - apply IH.
Qed.

Lemma calls_angles cs (v : MainView M) :
  (rotX (calls v cs), rotY (calls v cs), rotZ (calls v cs)) =
  angles_after cs (rotX v, rotY v, rotZ v).
Proof.
  revert v. induction cs as [|c cs IH]; intros v; [reflexivity|].
  unfold calls in *. simpl fold_left. rewrite IH, call_angles.
  destruct c; reflexivity.
Qed.

Lemma calls_factor cs (v : MainView M) :
  scaling (calls v cs) = factor_after cs (scaling v).
Proof.
  revert v. induction cs as [|c cs IH]; intros v; [reflexivity|].
  unfold calls in *. simpl fold_left. rewrite IH, call_factor.
  destruct c; reflexivity.
Qed.

(** X11. After any sequence of calls the stored angles and factor are
    those of the last [setRotation] and of the last [setScale] (or the
    ones before the sequence), and when the sequence holds one of these
    calls both matrices are the composition for these angles and this
    factor: no earlier call, resize, repaint or input event leaves a
    trace in them. *)
Theorem calls_leave_the_last_transform cs (v : MainView M) :
  (rotX (calls v cs), rotY (calls v cs), rotZ (calls v cs)) =
    angles_after cs (rotX v, rotY v, rotZ v) /\
  scaling (calls v cs) = factor_after cs (scaling v) /\
  (existsb is_transform cs = true ->
   let '(ax, ay, az) := angles_after cs (rotX v, rotY v, rotZ v) in
   model (calls v cs) =
     composed (float_of_Z (-2)) f0 (float_of_Z (-6)) ax ay az (factor_after cs (scaling v)) /\
   knotModel (calls v cs) =
     composed (float_of_Z 2) f0 (float_of_Z (-6)) ax ay az (factor_after cs (scaling v))).
Proof.
  split; [apply calls_angles|]. split; [apply calls_factor|].
  intros Ht. pose proof (calls_transform_consistent cs v Ht) as [Hm Hk].
  rewrite <- calls_angles, <- calls_factor. split; assumption.
Qed.

Lemma call_frame (v : MainView M) c :
  (buffer (call v c), array (call v c), knotVBO (call v c), knotVAO (call v c),
   modLoc (call v c), projLoc (call v c)) =
  (buffer v, array v, knotVBO v, knotVAO v, modLoc v, projLoc v) /\
  projection (call v c) = projection_after [c] (projection v) /\
  updates (call v c) = ((if requests_update c then 1 else 0) + updates v)%nat.
Proof. destruct c; repeat split. Qed.

(** X12. No sequence of calls changes the names of the buffers and
    vertex arrays or the uniform locations; the projection is that of
    the last [resizeGL], built from the identity, or the one before the
    sequence; every call but [resizeGL] and [paintGL] requests one
    repaint. *)
Theorem calls_frame cs (v : MainView M) :
  (buffer (calls v cs), array (calls v cs), knotVBO (calls v cs), knotVAO (calls v cs),
   modLoc (calls v cs), projLoc (calls v cs)) =
  (buffer v, array v, knotVBO v, knotVAO v, modLoc v, projLoc v) /\
  projection (calls v cs) = projection_after cs (projection v) /\
  updates (calls v cs) =
    (length (filter (fun c => Is_true (requests_update c)) cs) + updates v)%nat.
Proof.
  revert v. induction cs as [|c cs IH]; intros v; [repeat split|].
  unfold calls in *. simpl fold_left.
  destruct (IH (call v c)) as (Hn & Hp & Hu).
  destruct (call_frame v c) as (Hn1 & Hp1 & Hu1).
  rewrite Hn, Hn1, Hp, Hp1, Hu, Hu1. repeat split.
  - destruct c; reflexivity.
  - rewrite filter_cons. destruct c; simpl; lia.
Qed.

(** X13. The reset button of the scale calls [setScale] with 100: it
    leaves the factor 100 and matrices scaled by 100, for the angles of
    the view, while the slider moved to 100, where the button puts it,
    gives the factor 1. *)
Theorem reset_scale_sets_factor_100 (ui : Window.Ui M) :
  let view := Window.mainView ui in
  let reset := Window.mainView (Window.on_ResetScaleButton_clicked ui) in
  scaling reset = float_of_Z 100 /\
  model reset =
    composed (float_of_Z (-2)) f0 (float_of_Z (-6))
      (rotX view) (rotY view) (rotZ view) (float_of_Z 100) /\
  knotModel reset =
    composed (float_of_Z 2) f0 (float_of_Z (-6))
      (rotX view) (rotY view) (rotZ view) (float_of_Z 100) /\
  scaling (Window.mainView (Window.on_ScaleSlider_sliderMoved ui 100)) = f1 /\
  float_eqb (float_of_Z 100) f1 = false.
Proof.
  simpl. repeat split.
Qed.

End ViewMore.

(** ** The further facts on the sample sources *)

Lemma getMeshCoords_follows_references_witness :
  exists c,
    getMeshCoords (Sample.loaded Sample.two_triangles) !! 4%nat = Some c /\
    positions Sample.toFloat Sample.two_triangles !! Z.to_nat (3 - 1) = Some c /\
    length (positions Sample.toFloat Sample.two_triangles) =
      vertex_count Sample.two_triangles.
Proof.
  apply (getMeshCoords_follows_references Sample.toFloat Sample.toUInt
           Sample.two_triangles (Sample.loaded Sample.two_triangles) 4 3).
  - vm_compute. reflexivity.
  - vm_compute. reflexivity.
  - vm_compute. split; discriminate.
Defined.

Lemma getCoords_entries_are_used_witness :
  exists i,
    getTriangleIndices (Sample.loaded Sample.two_triangles) !! i = Some (Z.of_nat 2) /\
    getMeshCoords (Sample.loaded Sample.two_triangles) !! i = Some (mkQVector3D f1 f1 f0) /\
    forall j, (j < i)%nat ->
      getTriangleIndices (Sample.loaded Sample.two_triangles) !! j <> Some (Z.of_nat 2).
Proof.
  apply (getCoords_entries_are_used Sample.toFloat Sample.toUInt Sample.two_triangles).
  - vm_compute. reflexivity.
  - vm_compute. discriminate.
  - vm_compute. reflexivity.
Defined.

Lemma getCoords_length_bounds_witness :
  (length (getCoords (Sample.loaded Sample.two_triangles)) <=
   length (getMeshCoords (Sample.loaded Sample.two_triangles)))%nat /\
  (length (getCoords (Sample.loaded Sample.two_triangles)) <=
   vertex_count Sample.two_triangles)%nat.
Proof.
  destruct (getCoords_length_bounds Sample.toFloat Sample.toUInt Sample.two_triangles
              (Sample.loaded Sample.two_triangles)) as [Hflat Hpos].
  - vm_compute. reflexivity.
  - split; [exact Hflat|]. apply Hpos. repeat constructor.
Defined.

Lemma Model_ctor_ignores_interleaving_witness :
  Sample.load (Some Sample.two_triangles) = Sample.load (Some Sample.faces_first).
Proof.
  apply (Model_ctor_ignores_interleaving Sample.toFloat Sample.toUInt
           Sample.two_triangles Sample.faces_first).
  - vm_compute. reflexivity.
  - vm_compute. reflexivity.
  - vm_compute. reflexivity.
  - vm_compute. reflexivity.
Defined.

Lemma zero_reference_faults_witness :
  stored_index 0 = 4294967295 /\ Sample.load (Some Sample.bad_reference) = Fault.
Proof.
  apply (zero_reference_faults Sample.toFloat Sample.toUInt Sample.bad_reference).
  - vm_compute. reflexivity.
  - apply list_elem_of_In. vm_compute. tauto.
  - vm_compute. reflexivity.
Defined.

Lemma alignData_idempotent_witness :
  alignData (mkModel [mkQVector3D f0 f0 f0; mkQVector3D f1 f0 f0] [0; 1; 0; 0] []) =
  Done (mkModel [mkQVector3D f0 f0 f0; mkQVector3D f1 f0 f0] [0; 1; 0; 0] []).
Proof.
  apply (alignData_idempotent
           (mkModel [mkQVector3D f0 f0 f0; mkQVector3D f1 f0 f0; mkQVector3D f0 f0 f0]
                    [0; 1; 2; 0] [])).
  - vm_compute. discriminate.
  - vm_compute. reflexivity.
Defined.

Lemma no_geometry_is_the_empty_model_witness :
  Sample.load (Some Sample.no_geometry) = Done emptyModel /\
  Sample.load None = Done emptyModel /\
  getNumTriangles emptyModel = 0.
Proof.
  apply (no_geometry_is_the_empty_model Sample.toFloat Sample.toUInt Sample.no_geometry).
  - vm_compute. reflexivity.
  - vm_compute. reflexivity.
  - vm_compute. reflexivity.
Defined.

Lemma calls_leave_the_last_transform_witness :
  model (calls Sample.view
           [CallSetScale (float_ratio 1 2); CallKeyPress 65; CallSetRotation 30 0 0;
            CallResizeGL 400 300; CallPaintGL; CallSetScale (float_of_Z 2)]) =
    composed (float_of_Z (-2)) f0 (float_of_Z (-6)) 30 0 0 (float_of_Z 2) /\
  knotModel (calls Sample.view
           [CallSetScale (float_ratio 1 2); CallKeyPress 65; CallSetRotation 30 0 0;
            CallResizeGL 400 300; CallPaintGL; CallSetScale (float_of_Z 2)]) =
    composed (float_of_Z 2) f0 (float_of_Z (-6)) 30 0 0 (float_of_Z 2).
Proof.
  destruct (calls_leave_the_last_transform
              [CallSetScale (float_ratio 1 2); CallKeyPress 65; CallSetRotation 30 0 0;
               CallResizeGL 400 300; CallPaintGL; CallSetScale (float_of_Z 2)]
              Sample.view) as (_ & _ & Hm).
  apply Hm. reflexivity.
Defined.
